(** * container-diff: image resolution, layer pipeline and result rendering

    A shallow embedding of the image-preparation code of package [util]
    (image_prepper.go, cloud_prepper.go, the image utilities) and of
    [outputResults] of package [cmd], with the properties of the
    specification stated over it. *)

From Stdlib Require Import ZArith Ascii.
From stdpp Require Import gmap strings list sorting.

Local Open Scope Z_scope.
Local Open Scope nat_scope.
Local Open Scope stdpp_scope.

(** ** Go strings *)

Module strings.

(** [strings.HasPrefix(s, prefix)] *)
Definition HasPrefix (s prefix : string) : bool := String.prefix prefix s.

(** The bytes of [s] from offset [n] on: the Go slice [s[n:]]. *)
Fixpoint from (n : nat) (s : string) : string :=
  match n, s with
  | 0, _ => s
  | S _, EmptyString => EmptyString
  | S k, String _ s' => from k s'
  end.

(** [strings.Contains(s, substr)]: [substr] occurs at some offset. *)
Fixpoint Contains (s substr : string) : bool :=
  String.prefix substr s ||
  match s with
  | EmptyString => false
  | String _ s' => Contains s' substr
  end.

(** The replacement loop of [strings.Replace] for a non-empty [old]:
    the text is scanned from the left; at an occurrence of [old] the
    replacement [new] is written and the scan resumes behind the
    occurrence ([skip] counts the bytes of it still to be passed), so
    the instances replaced do not overlap.  [n] is the number of
    replacements still allowed, [None] for no limit. *)
Fixpoint replace_scan (old new : string) (n : option nat) (skip : nat)
    (s : string) : string :=
  match s with
  | EmptyString => EmptyString
  | String c s' =>
      match skip with
      | S k => replace_scan old new n k s'
      | 0 =>
          match n with
          | Some 0 => s
          | _ =>
              if String.prefix old s
              then new +:+ replace_scan old new (pred <$> n)
                             (String.length old - 1) s'
              else String c (replace_scan old new n 0 s')
          end
      end
  end.

(** With an empty [old], [strings.Replace] writes [new] in front of
    every character and at the end of the text ([n] insertions at most);
    characters are bytes here, which is Go's behaviour on ASCII text. *)
Fixpoint insert_scan (new : string) (n : option nat) (s : string) : string :=
  match n with
  | Some 0 => s
  | _ =>
      match s with
      | EmptyString => new
      | String c s' => new +:+ String c (insert_scan new (pred <$> n) s')
      end
  end.

(** [strings.Replace(s, old, new, n)]: a negative [n] lifts the limit. *)
Definition Replace (s old new : string) (n : Z) : string :=
  if (String.eqb old new || (n =? 0)%Z)%bool then s
  else
    let limit := if (n <? 0)%Z then None else Some (Z.to_nat n) in
    match old with
    | EmptyString => insert_scan new limit s
    | String _ _ => replace_scan old new limit 0 s
    end.

(** The text that is left when every byte lying inside an occurrence
    of [old] is deleted: the reading of "all occurrences removed" that
    does not depend on a scanning order.  [cover] is the number of
    bytes, from here on, inside an occurrence that starts further
    left. *)
Fixpoint delete_occurrences (old : string) (cover : nat) (s : string)
    : string :=
  match s with
  | EmptyString => EmptyString
  | String c s' =>
      let cover' :=
        if String.prefix old s then Nat.max cover (String.length old)
        else cover in
      match cover' with
      | 0 => String c (delete_occurrences old 0 s')
      | S k => delete_occurrences old k s'
      end
  end.

(** No proper end of [old] is also a beginning of it: two occurrences
    of such a text never overlap. *)
Definition border_free (old : string) : bool :=
  forallb (λ k, negb (String.prefix (from k old) old))
          (seq 1 (String.length old - 1)).

(** The bytes of [s], each as a text of its own: what [strings.Split]
    gives for an empty separator (on ASCII text). *)
Fixpoint explode (s : string) : list string :=
  match s with
  | EmptyString => []
  | String c s' => String c EmptyString :: explode s'
  end.

(** The loop of [strings.Split] for a non-empty [sep]: the text is
    scanned from the left, [field] collects the bytes since the last
    separator, and at an occurrence of [sep] the field is closed and the
    scan resumes behind the occurrence ([skip] bytes of it are still to
    be passed). *)
Fixpoint split_scan (sep : string) (skip : nat) (field : string) (s : string)
    : list string :=
  match s with
  | EmptyString => [field]
  | String c s' =>
      match skip with
      | S k => split_scan sep k field s'
      | 0 =>
          if String.prefix sep s
          then field :: split_scan sep (String.length sep - 1) EmptyString s'
          else split_scan sep 0 (field +:+ String c EmptyString) s'
      end
  end.

(** [strings.Split(s, sep)] *)
Definition Split (s sep : string) : list string :=
  match sep with
  | EmptyString => explode s
  | String _ _ => split_scan sep 0 EmptyString s
  end.

(** [strings.Join(elems, sep)] *)
Definition Join (elems : list string) (sep : string) : string :=
  String.concat sep elems.

End strings.

(** ** The image model (image utilities) *)

(** A Go [error] value; [None] is [nil]. *)
Definition error := option string.

Module ConfigObject.
Record t := mk { Env : list string }.
End ConfigObject.

Module ImageHistoryItem.
Record t := mk { CreatedBy : string }.
End ImageHistoryItem.

Module ConfigSchema.
Record t := mk {
  Config : ConfigObject.t;
  History : list ImageHistoryItem.t }.
(** The zero value [ConfigSchema{}]. *)
Definition zero : t := mk (ConfigObject.mk []) [].
End ConfigSchema.

Module Image.
Record t := mk {
  Source : string;
  FSPath : string;
  Config : ConfigSchema.t }.
(** The zero value [Image{}]. *)
Definition zero : t := mk "" "" ConfigSchema.zero.
End Image.

Module ImagePrepper.
(** The [Client] field is a handle on the docker daemon and carries no
    data of its own. *)
Record t := mk { Source : string }.
End ImagePrepper.

(** ** The resolver (image_prepper.go, cloud_prepper.go) *)

(** The three acquisition strategies behind the [Prepper] interface. *)
Inductive Strategy := Daemon | Cloud | Tar.

Inductive Method := mSupportsImage | mGetFileSystem | mGetConfig.

(** What a resolution does that can be seen from outside: the [glog]
    lines it writes and the calls it makes on strategies. *)
Inductive Event :=
| Glog (severity msg : string)
| Call (k : Strategy) (m : Method).

#[global] Instance Strategy_eq_dec : EqDecision Strategy.
Proof. solve_decision. Defined.
#[global] Instance Method_eq_dec : EqDecision Method.
Proof. solve_decision. Defined.

(** The code runs against the docker daemon, a registry and the
    [containers/image] library.  Their answers are the fields of this
    class; an answer depends on the identifier asked about. *)
Class Collaborators := {
  (** [types.ImageReference] *)
  ImageReference : Type;
  (** [reference.Parse(s)]: only the error is looked at. *)
  reference_Parse : string → error;
  (** [docker.ParseReference(s)] *)
  docker_ParseReference : string → ImageReference + string;
  (** [getFileSystemFromReference(ref, imageName)] as seen by a strategy:
      a temporary directory filled by the layer pipeline. *)
  FileSystemFromReference : ImageReference → string → string * error;
  (** [getConfigFromReference(ref, source)]: a config blob pulled from the
      registry and decoded. *)
  ConfigFromReference : ImageReference → string → ConfigSchema.t * error;
  (** [IsTar(path)], declared with the tar utilities. *)
  IsTar : string → bool;
  (** The methods of [DaemonPrepper] (daemon_prepper.go) and of
      [TarPrepper] (tar_prepper.go), as functions of the stored
      identifier; [SupportsImage] also returns the identifier it leaves
      behind. *)
  daemon_SupportsImage : string → bool * string;
  daemon_GetFileSystem : string → string * error;
  daemon_GetConfig : string → ConfigSchema.t * error;
  tar_SupportsImage : string → bool * string;
  tar_GetFileSystem : string → string * error;
  tar_GetConfig : string → ConfigSchema.t * error }.

(** Modelled from the spec: the constant [DaemonPrefix] is declared in
    daemon_prepper.go, outside the sources embedded here; it is the
    daemon scheme of the spec, spelled as the comment of
    [CloudPrepper.SupportsImage] and the integration tests spell it. *)
Definition DaemonPrefix : string := "daemon://".

Definition RemotePrefix : string := "remote://".

(** The state a resolution runs in: the [ImagePrepper] every strategy
    points to, and the events so far. *)
Record World := mkWorld {
  prepper_state : ImagePrepper.t;
  events : list Event }.

Definition M (A : Type) : Type := World → A * World.

#[global] Instance M_ret : MRet M := λ A a w, (a, w).
#[global] Instance M_bind : MBind M :=
  λ A B k m w, let '(a, w') := m w in k a w'.

Definition emit (e : Event) : M unit :=
  λ w, (tt, mkWorld (prepper_state w) (events w ++ [e])).
Definition glog_Infof (msg : string) : M unit := emit (Glog "INFO" msg).
Definition glog_Warning (msg : string) : M unit := emit (Glog "WARNING" msg).
Definition getSource : M string :=
  λ w, (ImagePrepper.Source (prepper_state w), w).
Definition setSource (s : string) : M unit :=
  λ w, (tt, mkWorld (ImagePrepper.mk s) (events w)).

(** The [Prepper] interface of image_prepper.go.  A strategy value such
    as [CloudPrepper{ImagePrepper: p}] holds the pointer [p], so its
    methods read (and [SupportsImage] may write) the shared
    [ImagePrepper]. *)
Record Prepper := mkPrepper {
  strategy : Strategy;
  Name : string;
  GetSource : ImagePrepper.t → string;
  GetFileSystem : ImagePrepper.t → string * error;
  GetConfig : ImagePrepper.t → ConfigSchema.t * error;
  SupportsImage : ImagePrepper.t → bool * ImagePrepper.t }.

(** A method call on a strategy, recorded as an event. *)
Definition call {A} (p : Prepper) (m : Method) (f : ImagePrepper.t → A) : M A :=
  λ w, (f (prepper_state w),
        mkWorld (prepper_state w) (events w ++ [Call (strategy p) m])).

Definition call_SupportsImage (p : Prepper) : M bool :=
  λ w, let '(b, ip) := SupportsImage p (prepper_state w) in
       (b, mkWorld ip (events w ++ [Call (strategy p) mSupportsImage])).

(** [getImage] of image_prepper.go *)
Definition getImage (prepper : Prepper) : M (Image.t * error) :=
  '(imgPath, err) ← call prepper mGetFileSystem (GetFileSystem prepper);
  match err with
  | Some e => mret (Image.zero, Some ("error msg: " +:+ e))
  | None =>
      '(config, err) ← call prepper mGetConfig (GetConfig prepper);
      match err with
      | Some e => mret (Image.zero, Some ("error msg: " +:+ e))
      | None =>
          src ← ((λ w, (GetSource prepper (prepper_state w), w)) : M string);
          glog_Infof ("Finished prepping image " +:+ src);;
          mret (Image.mk src imgPath config, None)
      end
  end.

Section Strategies.
Context `{Collaborators}.

(** The pattern [DaemonPrefix + ".*"] is the literal prefix followed by
    anything, and [MatchString] is not anchored: it reports whether the
    literal occurs somewhere in the text. *)
Definition daemonRegex_MatchString (s : string) : bool :=
  strings.Contains s DaemonPrefix.

(** [CloudPrepper.SupportsImage], cloud_prepper.go lines 42-55. *)
Definition CloudPrepper_SupportsImage (ip : ImagePrepper.t)
    : bool * ImagePrepper.t :=
  let Source := ImagePrepper.Source ip in
  if (daemonRegex_MatchString Source || IsTar Source)%bool then (false, ip)
  else
    let strippedSource := strings.Replace Source RemotePrefix "" (-1) in
    match reference_Parse Source with
    | Some _ => (true, ImagePrepper.mk strippedSource)
    | None => (false, ip)
    end.

(** [CloudPrepper.SupportsImage] as the second text of cloud_prepper.go
    has it (lines 110-117). *)
Definition CloudPrepper_SupportsImage' (ip : ImagePrepper.t)
    : bool * ImagePrepper.t :=
  let Source := ImagePrepper.Source ip in
  if daemonRegex_MatchString Source then (false, ip)
  else
    match reference_Parse Source with
    | None => (negb (IsTar Source), ip)
    | Some _ => (false, ip)
    end.

Definition CloudPrepper_GetFileSystem (ip : ImagePrepper.t) : string * error :=
  match docker_ParseReference ("//" +:+ ImagePrepper.Source ip) with
  | inr err => ("", Some err)
  | inl ref => FileSystemFromReference ref (ImagePrepper.Source ip)
  end.

Definition CloudPrepper_GetConfig (ip : ImagePrepper.t)
    : ConfigSchema.t * error :=
  match docker_ParseReference ("//" +:+ ImagePrepper.Source ip) with
  | inr err => (ConfigSchema.zero, Some err)
  | inl ref => ConfigFromReference ref (ImagePrepper.Source ip)
  end.

Definition CloudPrepper : Prepper := {|
  strategy := Cloud;
  Name := "Cloud Registry";
  GetSource := ImagePrepper.Source;
  GetFileSystem := CloudPrepper_GetFileSystem;
  GetConfig := CloudPrepper_GetConfig;
  SupportsImage := CloudPrepper_SupportsImage |}.

(** Modelled from the spec: [DaemonPrepper] is declared in
    daemon_prepper.go, outside the sources embedded here.  It is the
    local-daemon strategy of the spec: [GetSource] is the stored
    identifier, as in [CloudPrepper]; the other methods are the
    collaborators' answers. *)
Definition DaemonPrepper : Prepper := {|
  strategy := Daemon;
  Name := "Local Daemon";
  GetSource := ImagePrepper.Source;
  GetFileSystem := λ ip, daemon_GetFileSystem (ImagePrepper.Source ip);
  GetConfig := λ ip, daemon_GetConfig (ImagePrepper.Source ip);
  SupportsImage := λ ip,
    let '(b, s) := daemon_SupportsImage (ImagePrepper.Source ip) in
    (b, ImagePrepper.mk s) |}.

(** Modelled from the spec: [TarPrepper] is declared in tar_prepper.go,
    outside the sources embedded here.  It is the tar-archive strategy of
    the spec, set up like [DaemonPrepper]. *)
Definition TarPrepper : Prepper := {|
  strategy := Tar;
  Name := "Tar Archive";
  GetSource := ImagePrepper.Source;
  GetFileSystem := λ ip, tar_GetFileSystem (ImagePrepper.Source ip);
  GetConfig := λ ip, tar_GetConfig (ImagePrepper.Source ip);
  SupportsImage := λ ip,
    let '(b, s) := tar_SupportsImage (ImagePrepper.Source ip) in
    (b, ImagePrepper.mk s) |}.

(** Modelled from the spec: the table [orderedPreppers] is declared
    outside the sources embedded here; the spec fixes its order: local
    daemon first, then remote registry, then local tar file. *)
Definition orderedPreppers : list Prepper :=
  [DaemonPrepper; CloudPrepper; TarPrepper].

(** The probing loop of [ImagePrepper.GetImage] over the strategies
    still to try. *)
Fixpoint probe (preppers : list Prepper) : M (Image.t * error) :=
  match preppers with
  | [] => mret (Image.zero, Some "Could not retrieve image from source")
  | prepper :: rest =>
      call_SupportsImage prepper ≫= λ supported : bool,
      if supported then
        glog_Infof ("Attempting to retrieve image from " +:+ Name prepper);;
        '(img, err) ← getImage prepper;
        match err with
        | Some e => glog_Warning e ;; probe rest
        | None => mret (img, None)
        end
      else probe rest
  end.

(** [(p *ImagePrepper) GetImage()] *)
Definition GetImage : M (Image.t * error) :=
  src ← getSource;
  glog_Infof ("Starting prep for image " +:+ src);;
  if strings.HasPrefix src DaemonPrefix then
    setSource (strings.Replace src DaemonPrefix "" (-1));;
    getImage DaemonPrepper
  else if strings.HasPrefix src RemotePrefix then
    setSource (strings.Replace src RemotePrefix "" (-1));;
    getImage CloudPrepper
  else probe orderedPreppers.

(** A resolution of the identifier [source], from a fresh state. *)
Definition resolve (source : string) : (Image.t * error) * World :=
  GetImage (mkWorld (ImagePrepper.mk source) []).

(** What trying one strategy comes to: it declines the identifier, it
    claims it and fails, or it claims it and delivers an image. *)
Inductive Attempt :=
| Declined
| Failed (e : string)
| Acquired (img : Image.t).

Definition attempt (P : Prepper) (ip : ImagePrepper.t)
    : Attempt * ImagePrepper.t :=
  let '(supported, ip') := SupportsImage P ip in
  if supported then
    match GetFileSystem P ip' with
    | (_, Some e) => (Failed ("error msg: " +:+ e), ip')
    | (imgPath, None) =>
        match GetConfig P ip' with
        | (_, Some e) => (Failed ("error msg: " +:+ e), ip')
        | (config, None) =>
            (Acquired (Image.mk (GetSource P ip') imgPath config), ip')
        end
    end
  else (Declined, ip').

(** Every strategy of the list, tried in turn from [ip], declines or
    fails; [ip'] is the [ImagePrepper] left behind. *)
Fixpoint exhausts (ps : list Prepper) (ip ip' : ImagePrepper.t) : Prop :=
  match ps with
  | [] => ip = ip'
  | P :: rest =>
      ∃ ip1, (attempt P ip = (Declined, ip1) ∨ ∃ e, attempt P ip = (Failed e, ip1))
             ∧ exhausts rest ip1 ip'
  end.

(** The strategies whose [SupportsImage] was called, in call order. *)
Definition probes (evs : list Event) : list Strategy :=
  omap (λ e, match e with
             | Call k mSupportsImage => Some k
             | _ => None
             end) evs.

End Strategies.

(** ** The host file system *)

Module os.

(** The operating system as [CleanupImage] meets it.  The file system
    belongs to the machine and [os.RemoveAll] to Go's library: both are
    parameters, and so is the way the system resolves path names.
    [within path q] says that the name [q] is resolved to what [path]
    names or to something that lies below it. *)
Class System := {
  FileSystem : Type;
  (** Something exists under the name. *)
  present : FileSystem → string → Prop;
  within : string → string → Prop;
  (** [os.RemoveAll(path)]: the file system it leaves and the error it
      returns. *)
  RemoveAll : string → FileSystem → FileSystem * error }.

(** What the library promises of [os.RemoveAll] ("RemoveAll removes
    path and any children it contains"): outside the tree of [path]
    nothing is removed and nothing appears. *)
Definition removes_only_the_tree `{System} : Prop :=
  ∀ path fs q, ¬ within path q →
    (present (RemoveAll path fs).1 q ↔ present fs q).

End os.

(** ** The image utilities: pipeline and cleanup *)

Module image_utils.

(** [getImage] as the image utilities have it: a failure of
    [GetConfig] is written to the log and the image is returned with
    the configuration [GetConfig] handed back. *)
Definition getImage (p : Prepper) : M (Image.t * error) :=
  src ← ((λ w, (GetSource p (prepper_state w), w)) : M string);
  glog_Infof ("Retrieving image " +:+ src +:+ " from source " +:+ Name p);;
  '(imgPath, err) ← call p mGetFileSystem (GetFileSystem p);
  match err with
  | Some e => mret (Image.zero, Some e)
  | None =>
      '(config, err) ← call p mGetConfig (GetConfig p);
      match err with
      | Some e => emit (Glog "ERROR" ("Error retrieving History: " +:+ e))
      | None => mret tt
      end;;
      src ← ((λ w, (GetSource p (prepper_state w), w)) : M string);
      glog_Infof ("Finished prepping image " +:+ src);;
      mret (Image.mk src imgPath config, None)
  end.

(** [types.BlobInfo] *)
Record BlobInfo := mkBlobInfo { Digest : string; Size : Z }.

(** What [processLayers] runs against: the image source, the
    compression detector and the tar unpacker ([unpackTar] is declared
    with the tar utilities).  [Tree] is the content of the destination
    directory. *)
Class LayerSource := {
  Blob : Type;
  Reader : Type;
  Tree : Type;
  (** [imgSrc.GetBlob(b)] *)
  GetBlob : BlobInfo → Blob + string;
  (** [compression.DetectCompression(bi)]: a decompressor, if the
      stream is compressed, and the stream to read from. *)
  DetectCompression : Blob → (option (Reader → Reader + string) * Reader) + string;
  (** [unpackTar(tr, path)] on the directory at [path]. *)
  unpackTar : Reader → Tree → Tree * error }.

(** A Go channel of errors: capacity, buffered values, closed flag. *)
Record Chan := mkChan {
  capacity : nat;
  buffer : list string;
  closed : bool }.

(** [make(chan error)]: no capacity given, the channel is unbuffered. *)
Definition make_chan : Chan := mkChan 0 [] false.

(** [len(c)]: the number of values queued in the buffer. *)
Definition chan_len (c : Chan) : nat := length (buffer c).

(** The passes of [unpackTar] over the shared destination. *)
Inductive Pass :=
| ApplyBegin (layer : nat)
| ApplyEnd (layer : nat).

#[global] Instance Pass_eq_dec : EqDecision Pass.
Proof. solve_decision. Defined.

(** Layers are applied in index order when, once the pass of a layer
    has begun, no pass of a layer below it begins or ends any more. *)
Definition in_layer_order (tr : list Pass) : Prop :=
  ∀ i j p q, i < j → p < q →
    tr !! p = Some (ApplyBegin j) →
    tr !! q ≠ Some (ApplyBegin i) ∧ tr !! q ≠ Some (ApplyEnd i).

(** A pass ends only after it began. *)
Definition ends_after_begin (tr : list Pass) : Prop :=
  ∀ q i, tr !! q = Some (ApplyEnd i) →
    ∃ p, p < q ∧ tr !! p = Some (ApplyBegin i).

Section Pipeline.
Context `{LayerSource}.

(** Where the goroutine of one layer stands. *)
Inductive Worker :=
| wGetBlob
| wDetect (bi : Blob)
| wDecompress (f : Reader → Reader + string) (reader : Reader)
| wUnpack (reader : Reader)
| wUnpacking (reader : Reader)
| wSend (msg : string)
| wReturn
| wDone.

(** Where the goroutine that starts the workers and waits for them
    stands. *)
Inductive Coordinator :=
| cAdd
| cSpawn (i : nat)
| cWait
| cClose
| cDone.

(** Where the body of [processLayers] itself stands. *)
Inductive Main :=
| mGo
| mLen
| mRange (fullError : string)
| mReturn (err : error).

Record State := mkState {
  main : Main;
  coordinator : option Coordinator;
  workers : list Worker;
  wg : Z;
  errs : Chan;
  dest : Tree;
  passes : list Pass }.

Inductive Tid := tMain | tCoordinator | tWorker (i : nat).

#[global] Instance Tid_eq_dec : EqDecision Tid.
Proof. solve_decision. Defined.

Variable layerInfos : list BlobInfo.

(** The state behind [errs := make(chan error)], the destination
    holding [tree]. *)
Definition init (tree : Tree) : State :=
  mkState mGo None [] 0 make_chan tree [].

Definition set_main (m : Main) (s : State) : State :=
  mkState m (coordinator s) (workers s) (wg s) (errs s) (dest s) (passes s).
Definition set_coordinator (c : Coordinator) (s : State) : State :=
  mkState (main s) (Some c) (workers s) (wg s) (errs s) (dest s) (passes s).
Definition set_worker (i : nat) (w : Worker) (s : State) : State :=
  mkState (main s) (coordinator s) (<[i:=w]> (workers s)) (wg s) (errs s)
          (dest s) (passes s).
Definition set_errs (c : Chan) (s : State) : State :=
  mkState (main s) (coordinator s) (workers s) (wg s) c (dest s) (passes s).

(** One step of the body of [processLayers]; [None] when it cannot
    move. *)
Definition step_main (s : State) : option State :=
  match main s with
  | mGo =>
      (* go func() { ... }() *)
      Some (set_main mLen (set_coordinator cAdd s))
  | mLen =>
      (* if len(errs) != 0 *)
      if decide (chan_len (errs s) ≠ 0)
      then Some (set_main (mRange "") s)
      else Some (set_main (mReturn None) s)
  | mRange fullError =>
      (* for err := range errs *)
      match buffer (errs s) with
      | e :: rest =>
          Some (set_main (mRange (fullError +:+ e))
                  (set_errs (mkChan (capacity (errs s)) rest (closed (errs s))) s))
      | [] =>
          if closed (errs s)
          then Some (set_main (mReturn (Some fullError)) s)
          else None
      end
  | mReturn _ => None
  end.

Definition step_coordinator (s : State) : option State :=
  match coordinator s with
  | None => None
  | Some cAdd =>
      (* wg.Add(len(layerInfos)) *)
      Some (mkState (main s) (Some (cSpawn 0)) (workers s)
              (wg s + Z.of_nat (length layerInfos)) (errs s) (dest s) (passes s))
  | Some (cSpawn i) =>
      (* for i, b := range layerInfos { go func(...) } *)
      if decide (i < length layerInfos)
      then Some (mkState (main s) (Some (cSpawn (S i))) (workers s ++ [wGetBlob])
                   (wg s) (errs s) (dest s) (passes s))
      else Some (set_coordinator cWait s)
  | Some cWait =>
      (* wg.Wait() *)
      if decide (wg s = 0%Z) then Some (set_coordinator cClose s) else None
  | Some cClose =>
      (* close(errs) *)
      Some (set_coordinator cDone
              (set_errs (mkChan (capacity (errs s)) (buffer (errs s)) true) s))
  | Some cDone => None
  end.

(** [errs <- msg] by the worker [i]: the value goes into the buffer
    when there is room; on a full (or unbuffered) channel it is handed
    to the receiver when the body is waiting in its [range] loop with
    nothing left to take; otherwise the worker stays blocked. *)
Definition step_send (i : nat) (msg : string) (s : State) : option State :=
  if closed (errs s) then None
  else if decide (chan_len (errs s) < capacity (errs s))
  then Some (set_worker i wReturn
               (set_errs (mkChan (capacity (errs s)) (buffer (errs s) ++ [msg])
                                 false) s))
  else
    match main s, buffer (errs s) with
    | mRange fullError, [] =>
        Some (set_worker i wReturn (set_main (mRange (fullError +:+ msg)) s))
    | _, _ => None
    end.

Definition step_worker (i : nat) (s : State) : option State :=
  match workers s !! i, layerInfos !! i with
  | Some w, Some b =>
      match w with
      | wGetBlob =>
          match GetBlob b with
          | inr err =>
              Some (set_worker i (wSend ("Failed to pull image layer: " +:+ err)) s)
          | inl bi => Some (set_worker i (wDetect bi) s)
          end
      | wDetect bi =>
          match DetectCompression bi with
          | inr err =>
              Some (set_worker i
                      (wSend ("Failed to detect image compression: " +:+ err)) s)
          | inl (Some f, reader) => Some (set_worker i (wDecompress f reader) s)
          | inl (None, reader) => Some (set_worker i (wUnpack reader) s)
          end
      | wDecompress f reader =>
          match f reader with
          | inr err =>
              Some (set_worker i (wSend ("Failed to decompress image: " +:+ err)) s)
          | inl reader' => Some (set_worker i (wUnpack reader') s)
          end
      | wUnpack reader =>
          (* unpackTar(tr, path) starts writing *)
          Some (mkState (main s) (coordinator s)
                  (<[i:=wUnpacking reader]> (workers s)) (wg s) (errs s)
                  (dest s) (passes s ++ [ApplyBegin i]))
      | wUnpacking reader =>
          (* unpackTar(tr, path) has written the layer *)
          let '(tree, err) := unpackTar reader (dest s) in
          let w' := match err with
                    | Some e => wSend ("Failed to untar layer with error: " +:+ e)
                    | None => wReturn
                    end in
          Some (mkState (main s) (coordinator s) (<[i:=w']> (workers s)) (wg s)
                  (errs s) tree (passes s ++ [ApplyEnd i]))
      | wSend msg => step_send i msg s
      | wReturn =>
          (* the deferred wg.Done() *)
          Some (mkState (main s) (coordinator s) (<[i:=wDone]> (workers s))
                  (wg s - 1) (errs s) (dest s) (passes s))
      | wDone => None
      end
  | _, _ => None
  end.

Definition step (t : Tid) (s : State) : option State :=
  match t with
  | tMain => step_main s
  | tCoordinator => step_coordinator s
  | tWorker i => step_worker i s
  end.

(** An execution under a schedule: the goroutine named next moves if
    it can, and the state stays as it is if it cannot. *)
Definition exec (sched : list Tid) (s : State) : State :=
  foldl (λ s t, default s (step t s)) s sched.

(** A schedule that names workers only. *)
Definition workers_only (sched : list Tid) : Prop :=
  Forall (λ t, ∃ i, t = tWorker i) sched.

(** The value [processLayers] returns in a state, once its body has
    returned. *)
Definition returned (s : State) : option error :=
  match main s with
  | mReturn err => Some err
  | _ => None
  end.

(** What a worker has in hand when it calls [unpackTar]: the blob
    fetched and, if compressed, decompressed. *)
Definition fetched (b : BlobInfo) : option Reader :=
  match GetBlob b with
  | inr _ => None
  | inl bi =>
      match DetectCompression bi with
      | inr _ => None
      | inl (None, reader) => Some reader
      | inl (Some f, reader) =>
          match f reader with
          | inr _ => None
          | inl reader' => Some reader'
          end
      end
  end.

(** The passes of a run that applies the layers [order] one after the
    other. *)
Definition sequential (order : list nat) : list Pass :=
  order ≫= λ i, [ApplyBegin i; ApplyEnd i].

(** The error channel has no buffer and holds nothing, and the body
    of [processLayers] is before its test of [len(errs)] or has
    returned [nil]. *)
Definition quiet (s : State) : Prop :=
  capacity (errs s) = 0 ∧ buffer (errs s) = [] ∧
  (main s = mGo ∨ main s = mLen ∨ main s = mReturn None).

(** A worker that has entered [unpackTar], and one that has left it
    (or never gets there). *)
Definition begun (w : Worker) : Prop :=
  match w with
  | wUnpacking _ | wSend _ | wReturn | wDone => True
  | _ => False
  end.
Definition ended (w : Worker) : Prop :=
  match w with
  | wSend _ | wReturn | wDone => True
  | _ => False
  end.

(** What a worker has in hand comes from its own layer [b]. *)
Definition holds (b : BlobInfo) (w : Worker) : Prop :=
  match w with
  | wDetect bi => GetBlob b = inl bi
  | wDecompress f reader =>
      ∃ bi, GetBlob b = inl bi ∧ DetectCompression bi = inl (Some f, reader)
  | wUnpack reader | wUnpacking reader => fetched b = Some reader
  | _ => True
  end.

(** How the passes written so far and the workers fit together. *)
Record consistent (ws : list Worker) (tr : list Pass) : Prop := {
  passes_once : NoDup tr;
  passes_paired : ends_after_begin tr;
  begin_fetched : ∀ i, ApplyBegin i ∈ tr →
    ∃ b r, layerInfos !! i = Some b ∧ fetched b = Some r;
  begin_worker : ∀ i, ApplyBegin i ∈ tr → ∃ w, ws !! i = Some w ∧ begun w;
  end_worker : ∀ i, ApplyEnd i ∈ tr → ∃ w, ws !! i = Some w ∧ ended w;
  unpacking_begun : ∀ i r, ws !! i = Some (wUnpacking r) → ApplyBegin i ∈ tr;
  worker_holds : ∀ i w b,
    ws !! i = Some w → layerInfos !! i = Some b → holds b w }.

(** A worker that has run its deferred [wg.Done()]. *)
Definition is_done (w : Worker) : bool :=
  match w with
  | wDone => true
  | _ => false
  end.

(** The number of workers that have run their [wg.Done()]. *)
Definition finished (ws : list Worker) : nat :=
  sum_list_with (λ w, if is_done w then 1 else 0) ws.

(** A worker that has got past its last send. *)
Definition settled (w : Worker) : Prop :=
  match w with
  | wReturn | wDone => True
  | _ => False
  end.

(** The wait group counts the workers still to finish, from the moment
    the coordinator has added them; once the coordinator is past its
    wait every worker has finished, and the channel is closed by the
    coordinator alone.  [c], [ws], [g] and [cl] are the coordinator, the
    workers, the counter of the wait group and the closed flag of the
    channel. *)
Definition accounted_at (c : option Coordinator) (ws : list Worker) (g : Z)
    (cl : bool) : Prop :=
  match c with
  | None | Some cAdd => ws = [] ∧ g = 0%Z
  | Some (cSpawn k) =>
      length ws = k ∧ k ≤ length layerInfos ∧
      g = (Z.of_nat (length layerInfos) - Z.of_nat (finished ws))%Z
  | Some cWait =>
      length ws = length layerInfos ∧
      g = (Z.of_nat (length layerInfos) - Z.of_nat (finished ws))%Z
  | Some cClose | Some cDone =>
      length ws = length layerInfos ∧ finished ws = length layerInfos ∧
      g = 0%Z
  end ∧
  (cl = true → c = Some cDone).

Definition accounted (s : State) : Prop :=
  accounted_at (coordinator s) (workers s) (wg s) (closed (errs s)) ∧
  (main s = mGo → coordinator s = None).

(** Only a worker whose layer could be fetched gets past its sends. *)
Definition settled_fetched (ws : list Worker) : Prop :=
  ∀ i w b, ws !! i = Some w → layerInfos !! i = Some b → settled w →
           is_Some (fetched b).

(** The layers whose pass has ended, in the order the passes ended. *)
Definition ended_layers (tr : list Pass) : list nat :=
  omap (λ p, match p with
             | ApplyEnd i => Some i
             | ApplyBegin _ => None
             end) tr.

(** [unpackTar] of the layer [i] on a tree. *)
Definition apply_layer (tree : Tree) (i : nat) : Tree :=
  match layerInfos !! i ≫= fetched with
  | Some reader => (unpackTar reader tree).1
  | None => tree
  end.

End Pipeline.

(** What the image utilities ask of an image reference, of the JSON
    decoder and of the host.  The image source that
    [ref.NewImageSource] hands out is the [LayerSource] at hand;
    [unpackDockerSave] is declared with the tar utilities, and
    [empty_dir] is the content of a directory just created. *)
Class Reference `{LayerSource} := {
  ImageRef : Type;
  ImageHandle : Type;
  (** [ioutil.TempDir(dir, prefix)] *)
  ioutil_TempDir : string → string → string + string;
  (** [ref.NewImage(nil)] *)
  NewImage : ImageRef → ImageHandle + string;
  (** [ref.NewImageSource(nil, nil)]: only the error. *)
  NewImageSource : ImageRef → error;
  (** [img.LayerInfos()] *)
  LayerInfos : ImageHandle → list BlobInfo;
  (** [img.ConfigBlob()] *)
  ConfigBlob : ImageHandle → string + string;
  (** [json.Unmarshal(configBlob, &config)] *)
  json_Unmarshal : string → ConfigSchema.t + string;
  empty_dir : Tree;
  (** [unpackDockerSave(tarPath, target)] *)
  unpackDockerSave : string → string → error }.

Section References.
Context `{Reference}.

(** [getImageFromTar(tarPath)] with the lines it logs. *)
Definition getImageFromTar (tarPath : string) : (string * error) * list Event :=
  let log := [Glog "INFO" "Extracting image tar to obtain image file system"] in
  match ioutil_TempDir "" ".container-diff" with
  | inr err => (("", Some err), log)
  | inl tempPath => ((tempPath, unpackDockerSave tarPath tempPath), log)
  end.

(** The directory name [getFileSystemFromReference] makes of an image
    name. *)
Definition sanitizedName (imageName : string) : string :=
  let sanitizedName := strings.Replace imageName ":" "" (-1) in
  strings.Replace sanitizedName "/" "" (-1).

(** [getFileSystemFromReference(ref, imageName)] with the lines it
    logs.  [sched] is the order in which the goroutines of
    [processLayers] run until the result is looked at; the result is
    [None] when the body of [processLayers] has not returned by then.
    The deferred [img.Close()] releases the handle and is left out. *)
Definition getFileSystemFromReference (ref : ImageRef) (imageName : string)
    (sched : list Tid) : option ((string * error) * list Event) :=
  match ioutil_TempDir "" (sanitizedName imageName) with
  | inr err => Some (("", Some err), [])
  | inl path =>
      match NewImage ref with
      | inr err => Some (("", Some err), [Glog "ERROR" err])
      | inl img =>
          match NewImageSource ref with
          | Some err => Some (("", Some err), [Glog "ERROR" err])
          | None =>
              err ← returned (exec (LayerInfos img) sched (init empty_dir));
              Some ((path, err), [])
          end
      end
  end.

(** [getConfigFromReference(ref, source)] with the lines it logs. *)
Definition getConfigFromReference (ref : ImageRef) (source : string)
    : (ConfigSchema.t * error) * list Event :=
  match NewImage ref with
  | inr err =>
      ((ConfigSchema.zero, Some "Could not obtain image config"),
       [Glog "ERROR" ("Error referencing image " +:+ source +:+
                      " from registry: " +:+ err)])
  | inl img =>
      match ConfigBlob img with
      | inr err =>
          ((ConfigSchema.zero, Some "Could not obtain image config"),
           [Glog "ERROR" ("Error obtaining config blob for image " +:+ source +:+
                          " from registry: " +:+ err)])
      | inl configBlob =>
          match json_Unmarshal configBlob with
          | inr err =>
              ((ConfigSchema.zero, Some "Could not obtain image config"),
               [Glog "ERROR" ("Error with config file struct for image " +:+
                              source +:+ ": " +:+ err)])
          | inl config => ((config, None), [])
          end
      end
  end.

End References.

Section Cleanup.
Context `{os.System}.

(** The machine [CleanupImage] runs on: its file system and its log. *)
Record Host := mkHost {
  fs : os.FileSystem;
  glog : list Event }.

(** [CleanupImage(image)].  The image is passed by value; the first
    component of the result is the parameter as the function leaves
    it, the second the machine.  The function returns nothing. *)
Definition CleanupImage (image : Image.t) (h : Host) : Image.t * Host :=
  if decide (Image.FSPath image ≠ "") then
    let log1 := glog h ++
      [Glog "INFO" ("Removing image filesystem directory " +:+
                    Image.FSPath image +:+ " from system")] in
    let '(fs', err) := os.RemoveAll (Image.FSPath image) (fs h) in
    match err with
    | Some e => (image, mkHost fs' (log1 ++ [Glog "ERROR" e]))
    | None => (image, mkHost fs' log1)
    end
  else (image, h).

End Cleanup.

End image_utils.

(** ** Rendering the results (package cmd) *)

Module cmd.

(** What is written while results are rendered: text on the standard
    output, and errors in the log. *)
Inductive Output :=
| Stdout (text : string)
| GlogError (msg : string).

Section Rendering.
(** The structured form of a result, [interface{}] in the code. *)
Context {Payload : Type}.

(** The [util.Result] interface: [OutputText] gives the text it
    prints and the error it returns. *)
Record Result := mkResult {
  OutputStruct : Payload;
  OutputText : string → string * error }.

(** [util.JSONify(results)]: the text printed and the error returned. *)
Variable JSONify : list (option Payload) → string * error.

Definition string_le (a b : string) : Prop := String.leb a b = true.
Definition string_lt (a b : string) : Prop := String.ltb a b = true.

#[global] Instance string_le_dec a b : Decision (string_le a b).
Proof. unfold string_le. apply _. Defined.

(** [sort.Strings]: increasing order, strings compared byte by byte. *)
Definition sort_Strings (l : list string) : list string :=
  merge_sort string_le l.

Definition log_error (err : error) : list Output :=
  match err with
  | Some e => [GlogError e]
  | None => []
  end.

(** The loop of [outputResults] over [sortedTypes], from index [i] on.
    [None] is a run-time panic: a method call on a missing result, or
    an index outside [results]. *)
Fixpoint render (json : bool) (resultMap : gmap string Result)
    (sortedTypes : list string) (i : nat)
    (results : list (option Payload)) (out : list Output)
    : option (list (option Payload) * list Output) :=
  match sortedTypes with
  | [] => Some (results, out)
  | analyzerType :: rest =>
      match resultMap !! analyzerType with
      | None => None
      | Some result =>
          if json then
            if decide (i < length results)
            then render json resultMap rest (S i)
                   (<[i:=Some (OutputStruct result)]> results) out
            else None
          else
            let '(text, err) := OutputText result analyzerType in
            render json resultMap rest (S i) results
              (out ++ Stdout text :: log_error err)
      end
  end.

(** [outputResults(resultMap)] under the flag [json].  [order] is the
    order in which [range resultMap] happens to yield the keys. *)
Definition outputResults (json : bool) (resultMap : gmap string Result)
    (order : list string) : option (list Output) :=
  let sortedTypes := sort_Strings (foldl (λ acc k, acc ++ [k]) [] order) in
  let results := replicate (size resultMap) None in
  '(results, out) ← render json resultMap sortedTypes 0 results [];
  if json then
    let '(text, err) := JSONify results in
    Some (out ++ Stdout text :: log_error err)
  else Some out.

(** What the spec asks to see for the results [rs], taken in the
    order of the list: in structured form one payload per analyzer,
    in text form each analyzer's text, with its error if it has one. *)
Definition rendering (json : bool) (rs : list (string * Result))
    : list Output :=
  if json then
    let '(text, err) := JSONify ((λ r, Some (OutputStruct r.2)) <$> rs) in
    Stdout text :: log_error err
  else
    rs ≫= λ r, let '(text, err) := OutputText r.2 r.1 in
               Stdout text :: log_error err.

End Rendering.

Arguments Result : clear implicits.

(** The texts written on the standard output, in order. *)
Definition texts (out : list Output) : list string :=
  omap (λ o, match o with
             | Stdout text => Some text
             | GlogError _ => None
             end) out.

(** [type validatefxn func(args []string) error] *)
Definition validatefxn : Type := list string → error.

(** [validateArgs(args, validatefxns...)] *)
Fixpoint validateArgs (args : list string) (validatefxns : list validatefxn)
    : error :=
  match validatefxns with
  | [] => None
  | validatefxn :: rest =>
      match validatefxn args with
      | Some err => Some err
      | None => validateArgs args rest
      end
  end.

Section Analyzers.
(** The registry [differs.Analyzers], a map from analyzer name to
    analyzer, is declared in package [differs]. *)
Context {Analyzer : Type}.
Variable Analyzers : gmap string Analyzer.

(** The loop of [checkIfValidAnalyzer] over the names. *)
Fixpoint check_names (analyzers : list string) : error :=
  match analyzers with
  | [] => None
  | name :: rest =>
      match Analyzers !! name with
      | None => Some ("Argument " +:+ name +:+ " is not a valid analyzer")
      | Some _ => check_names rest
      end
  end.

(** [checkIfValidAnalyzer(flagtypes)] *)
Definition checkIfValidAnalyzer (flagtypes : string) : error :=
  if String.eqb flagtypes ""
  then Some "Please provide at least one analyzer to run"
  else check_names (strings.Split flagtypes ",").

End Analyzers.

End cmd.

(** ** Concrete collaborators, for running the definitions *)

Module Scenario.
Import image_utils cmd.

Definition config : ConfigSchema.t :=
  ConfigSchema.mk (ConfigObject.mk ["PATH=/usr/bin"])
                  [ImageHistoryItem.mk "/bin/sh"].

(** A host whose daemon holds no image, and a registry that serves
    every image but delivers the configuration of none under the
    [broken/] repository.  References with a scheme or a blank do not
    parse. *)
#[local] Instance registry_only : Collaborators := {|
  ImageReference := string;
  reference_Parse := λ s,
    if (strings.Contains s "://" || strings.Contains s " ")%bool
    then Some "invalid reference format" else None;
  docker_ParseReference := λ s, inl s;
  FileSystemFromReference := λ _ name, ("/tmp/" +:+ name, None);
  ConfigFromReference := λ _ name,
    if String.prefix "broken/" name
    then (ConfigSchema.zero, Some "Could not obtain image config")
    else (config, None);
  IsTar := λ s, strings.Contains s ".tar";
  daemon_SupportsImage := λ s, (true, s);
  daemon_GetFileSystem := λ s, ("", Some "No such image");
  daemon_GetConfig := λ s, (config, None);
  tar_SupportsImage := λ s, (strings.Contains s ".tar", s);
  tar_GetFileSystem := λ s, ("/tmp/.container-diff", None);
  tar_GetConfig := λ s, (config, None) |}.

(** A host whose daemon claims every identifier and hands out its file
    system, but the configuration of none; tar archives are read as on
    the host above. *)
#[local] Instance daemon_without_config : Collaborators := {|
  ImageReference := string;
  reference_Parse := λ s,
    if (strings.Contains s "://" || strings.Contains s " ")%bool
    then Some "invalid reference format" else None;
  docker_ParseReference := λ s, inl s;
  FileSystemFromReference := λ _ name, ("/tmp/" +:+ name, None);
  ConfigFromReference := λ _ name, (config, None);
  IsTar := λ s, strings.Contains s ".tar";
  daemon_SupportsImage := λ s, (true, s);
  daemon_GetFileSystem := λ s, ("/tmp/daemon", None);
  daemon_GetConfig := λ s, (ConfigSchema.zero, Some "No such image");
  tar_SupportsImage := λ s, (strings.Contains s ".tar", s);
  tar_GetFileSystem := λ s, ("/tmp/.container-diff", None);
  tar_GetConfig := λ s, (config, None) |}.

(** Layers are named by their digest; the blob ["missing"] cannot be
    fetched, blobs whose name starts with ["gz"] are compressed, and the
    destination records the layers written to it. *)
#[local] Instance layers_by_name : LayerSource := {|
  Blob := string;
  Reader := string;
  Tree := list string;
  GetBlob := λ b,
    if String.eqb (Digest b) "missing" then inr "blob unknown"
    else inl (Digest b);
  DetectCompression := λ bi,
    inl (if String.prefix "gz" bi then Some (λ r, inl ("plain " +:+ r)) else None,
         bi);
  unpackTar := λ r tree, (tree ++ [r], None) |}.

Definition two_layers : list BlobInfo :=
  [mkBlobInfo "gz base" 10; mkBlobInfo "top" 20].

Definition one_missing_layer : list BlobInfo := [mkBlobInfo "missing" 10].

(** A registry that knows the image ["library/app:1.0"] with its two
    layers and a well-formed configuration, and the image
    ["library/bad:1.0"] whose only layer is missing and whose
    configuration does not decode. *)
#[local] Instance one_image : Reference := {|
  ImageRef := string;
  ImageHandle := string;
  ioutil_TempDir := λ dir prefix, inl ("/tmp/" +:+ prefix +:+ "123");
  NewImage := λ ref,
    if String.eqb ref "library/app:1.0" then inl ref
    else if String.eqb ref "library/bad:1.0" then inl ref
    else inr "manifest unknown";
  NewImageSource := λ ref, None;
  LayerInfos := λ img,
    if String.eqb img "library/app:1.0" then two_layers else one_missing_layer;
  ConfigBlob := λ img, inl img;
  json_Unmarshal := λ blob,
    if String.eqb blob "library/app:1.0" then inl config
    else inr "unexpected end of JSON input";
  empty_dir := [];
  unpackDockerSave := λ tarPath target, None |}.

(** The pipeline about to start on an empty destination. *)
Definition start : State := init [].

(** The coordinator is started and starts both workers; then the
    worker of layer 1 runs to its end before the worker of layer 0. *)
Definition top_first : list Tid :=
  tMain :: replicate 4 tCoordinator ++ replicate 4 (tWorker 1)
        ++ replicate 5 (tWorker 0).

Definition text_result (payload : string) (failure : error)
    : Result string :=
  mkResult payload (λ analyzerType, (analyzerType +:+ ": " +:+ payload, failure)).

Definition three_results : gmap string (Result string) :=
  <["pip":=text_result "P" None]>
    (<["apt":=text_result "A" (Some "template failed")]>
       (<["file":=text_result "F" None]> ∅)).

Definition JSONify (l : list (option string)) : string * error :=
  ("[" +:+ String.concat "," (default "null" <$> l) +:+ "]", None).

(** The analyzers registered under their names. *)
Definition analyzers : gmap string unit :=
  list_to_map ((λ name, (name, tt)) <$> ["apt"; "file"; "history"; "node"; "pip"]).

(** A path name without the slashes at its end. *)
Fixpoint trim (s : string) : string :=
  match s with
  | EmptyString => EmptyString
  | String c s' =>
      let t := trim s' in
      if (Ascii.eqb c "/" && String.eqb t "")%bool then EmptyString
      else String c t
  end.

(** On a machine whose path names are absolute and spelled without
    [.], [..] and doubled slashes: the name [q] is [root] or lies below
    it. *)
Definition below (root q : string) : bool :=
  (String.eqb q (trim root) || String.prefix (trim root +:+ "/") q)%bool.

(** The names that exist on such a machine, and those among them the
    process is not allowed to remove. *)
Record Disk := mkDisk {
  entries : gset string;
  locked : gset string }.

(** [os.RemoveAll] on such a machine removes what it can of the tree:
    a name that cannot be removed stays, and so do the directories above
    it; the error names the first of the names that could not be
    removed. *)
Definition remove_all (path : string) (d : Disk) : Disk * error :=
  let stuck := filter (λ q, below path q = true ∧ q ∈ locked d) (entries d) in
  (mkDisk (filter (λ q, below path q = false ∨
                        set_Exists (λ l, below q l = true) stuck) (entries d))
          (locked d),
   match elements stuck with
   | [] => None
   | l :: _ => Some ("unlinkat " +:+ l +:+ ": permission denied")
   end).

#[local] Instance machine : os.System := {|
  os.FileSystem := Disk;
  os.present := λ d q, q ∈ entries d;
  os.within := λ root q, below root q = true;
  os.RemoveAll := remove_all |}.

Definition host : Host :=
  mkHost (mkDisk {["/tmp/img"; "/tmp/img/etc"; "/tmp/img2"; "/home"]}
                 {["/tmp/img/etc"]})
         [].

End Scenario.

(** * Properties *)

(** ** Strings *)

Section StringFacts.
Import strings.

Lemma string_prefix_cons a s b t :
  String.prefix (String a s) (String b t) = true ↔ a = b ∧ String.prefix s t = true.
Proof.
  simpl. destruct (ascii_dec a b); intuition congruence.
Qed.

Lemma prefix_empty_r s : String.prefix s "" = true → s = "".
Proof. destruct s; [done | discriminate]. Qed.

(** Of two beginnings of one text, the shorter begins the longer. *)
Lemma prefix_of_prefix a b t :
  String.prefix a t = true → String.prefix b t = true →
  String.length a ≤ String.length b → String.prefix a b = true.
Proof.
  revert b t. induction a as [|x a IH]; intros b t Ha Hb Hlen; [by destruct b |].
  destruct b as [|y b]; [simpl in Hlen; lia |].
  destruct t as [|z t]; [discriminate |].
  apply string_prefix_cons in Ha as [-> Ha]. apply string_prefix_cons in Hb as [-> Hb].
  apply string_prefix_cons. split; [done |].
  apply (IH b t); [done | done | simpl in Hlen; lia].
Qed.

Lemma from_length k s :
  String.length (from k s) = String.length s - k.
Proof.
  revert s. induction k as [|k IH]; intros [|c s]; simpl; auto with lia.
Qed.

Lemma from_S k s c t :
  from k s = String c t → from (S k) s = t.
Proof.
  revert s. induction k as [|k IH]; intros s Hs.
  - simpl in Hs. by subst.
  - destruct s as [|x s]; [discriminate |]. simpl in Hs. by apply IH.
Qed.

(** After the first byte of a text that continues an occurrence, the
    text continues it one byte further. *)
Lemma prefix_from_step old d c t :
  d < String.length old →
  String.prefix (from d old) (String c t) = true →
  String.prefix (from (S d) old) t = true.
Proof.
  intros Hd Hp.
  destruct (from d old) as [|x r] eqn:Hr.
  - pose proof (from_length d old) as Hl. rewrite Hr in Hl. simpl in Hl. lia.
  - apply string_prefix_cons in Hp as [_ Hp]. by rewrite (from_S _ _ _ _ Hr).
Qed.

Lemma border_free_spec old d :
  border_free old = true → 0 < d < String.length old →
  String.prefix (from d old) old = false.
Proof.
  unfold border_free. rewrite forallb_forall. intros Hb Hd.
  specialize (Hb d). rewrite negb_true_iff in Hb. apply Hb.
  apply in_seq. lia.
Qed.

(** Inside an occurrence of a border-free text no other occurrence
    starts. *)
Lemma no_occurrence_inside old d t :
  border_free old = true → 0 < d < String.length old →
  String.prefix (from d old) t = true → String.prefix old t = false.
Proof.
  intros Hb Hd Hin. destruct (String.prefix old t) eqn:Hocc; [| done].
  rewrite <-(border_free_spec old d Hb Hd).
  symmetry. apply (prefix_of_prefix _ _ t); [done | done |].
  rewrite from_length. lia.
Qed.

Lemma replace_scan_delete old skip t :
  border_free old = true → skip < String.length old →
  (0 < skip → String.prefix (from (String.length old - skip) old) t = true) →
  replace_scan old "" None skip t = delete_occurrences old skip t.
Proof.
  intros Hb. revert skip. induction t as [|c t IH]; intros skip Hskip Hin; [done |].
  destruct skip as [|k].
  - cbn [replace_scan delete_occurrences fmap option_fmap option_map].
    destruct (String.prefix old (String c t)) eqn:Hocc.
    + replace (Nat.max 0 (String.length old)) with (S (String.length old - 1)) by lia.
      simpl String.append. apply IH; [lia |]. intros Hpos.
      replace (String.length old - (String.length old - 1)) with 1 by lia.
      apply (prefix_from_step old 0 c); [lia | done].
    + f_equal. apply IH; [lia | lia].
  - cbn [replace_scan delete_occurrences].
    assert (String.prefix old (String c t) = false) as ->.
    { apply (no_occurrence_inside old (String.length old - S k)); [done | lia |].
      apply Hin. lia. }
    apply IH; [lia |]. intros Hpos.
    replace (String.length old - k) with (S (String.length old - S k)) by lia.
    apply (prefix_from_step old _ c); [lia |]. apply Hin. lia.
Qed.

(** For a border-free [old], [strings.Replace(s, old, "", -1)] deletes
    exactly the bytes of [s] that lie inside an occurrence of [old]. *)
Lemma Replace_deletes_every_occurrence old s :
  old ≠ "" → border_free old = true →
  Replace s old "" (-1) = delete_occurrences old 0 s.
Proof.
  intros Hne Hb. unfold Replace.
  destruct old as [|c old]; [done |].
  cbn [String.eqb orb Z.eqb Z.ltb Z.compare].
  apply replace_scan_delete; [done | simpl; lia | lia].
Qed.

End StringFacts.

Example Replace_all_instances :
  strings.Replace "a-b-c" "-" "+" (-1) = "a+b+c".
Proof. reflexivity. Qed.

Example Replace_two_instances :
  strings.Replace "a-b-c-d" "-" "" 2 = "abc-d".
Proof. reflexivity. Qed.

Example Replace_does_not_rescan :
  strings.Replace "aaa" "aa" "b" (-1) = "ba".
Proof. reflexivity. Qed.

Example Replace_empty_old :
  strings.Replace "ab" "" "-" (-1) = "-a-b-".
Proof. reflexivity. Qed.

(** The text left by a replacement can hold the scheme again. *)
Example Replace_result_may_hold_prefix :
  strings.Replace "daemon://daemon:daemon:////x" DaemonPrefix "" (-1) = "daemon://x".
Proof. reflexivity. Qed.

Lemma DaemonPrefix_border_free : strings.border_free DaemonPrefix = true.
Proof. reflexivity. Qed.

Lemma RemotePrefix_border_free : strings.border_free RemotePrefix = true.
Proof. reflexivity. Qed.

Lemma schemes_exclude s :
  strings.HasPrefix s DaemonPrefix = true → strings.HasPrefix s RemotePrefix = false.
Proof.
  unfold strings.HasPrefix, DaemonPrefix, RemotePrefix.
  destruct s as [|c s]; [discriminate |]. intros Hd.
  apply string_prefix_cons in Hd as [<- _]. reflexivity.
Qed.

(** ** The resolver *)

Section ResolverFacts.
Context `{Collaborators}.

(** What [getImage] comes to in a state. *)
Lemma getImage_run P w :
  getImage P w =
    let ip := prepper_state w in
    let ev1 := events w ++ [Call (strategy P) mGetFileSystem] in
    let ev2 := ev1 ++ [Call (strategy P) mGetConfig] in
    match GetFileSystem P ip with
    | (_, Some e) => (Image.zero, Some ("error msg: " +:+ e), mkWorld ip ev1)
    | (imgPath, None) =>
        match GetConfig P ip with
        | (_, Some e) => (Image.zero, Some ("error msg: " +:+ e), mkWorld ip ev2)
        | (config, None) =>
            (Image.mk (GetSource P ip) imgPath config, None,
             mkWorld ip (ev2 ++ [Glog "INFO" ("Finished prepping image "
                                              +:+ GetSource P ip)]))
        end
    end.
Proof.
  unfold getImage, call, mbind, M_bind, mret, M_ret, glog_Infof, emit. simpl.
  destruct (GetFileSystem P (prepper_state w)) as [imgPath [e|]]; [done |].
  simpl. destruct (GetConfig P (prepper_state w)) as [config [e|]]; done.
Qed.

Lemma probes_app l1 l2 : probes (l1 ++ l2) = probes l1 ++ probes l2.
Proof. unfold probes. apply omap_app. Qed.

(** [getImage] leaves the [ImagePrepper] alone and probes nothing. *)
Lemma getImage_frame P w :
  prepper_state (getImage P w).2 = prepper_state w ∧
  probes (events (getImage P w).2) = probes (events w).
Proof.
  rewrite getImage_run. simpl.
  destruct (GetFileSystem P (prepper_state w)) as [imgPath [e|]];
    [| destruct (GetConfig P (prepper_state w)) as [config [e|]]];
    simpl; rewrite ?probes_app; simpl; rewrite ?app_nil_r; done.
Qed.

(** The events [getImage] adds are calls on its own strategy, none of
    them a probe. *)
Lemma getImage_calls P w k m :
  Call k m ∈ events (getImage P w).2 →
  Call k m ∈ events w ∨ (k = strategy P ∧ m ≠ mSupportsImage).
Proof.
  rewrite getImage_run. simpl.
  destruct (GetFileSystem P (prepper_state w)) as [imgPath [e|]];
    [| destruct (GetConfig P (prepper_state w)) as [config [e|]]];
    simpl; rewrite !elem_of_app, !list_elem_of_singleton;
    intros Hin; destruct_or!; simplify_eq; auto.
Qed.

(** One round of the probing loop is one [attempt]. *)
Lemma attempt_acquired P ip img ip' :
  attempt P ip = (Acquired img, ip') →
  (SupportsImage P ip) = (true, ip') ∧
  GetFileSystem P ip' = (Image.FSPath img, None) ∧
  GetConfig P ip' = (Image.Config img, None) ∧
  Image.Source img = GetSource P ip'.
Proof.
  unfold attempt. destruct (SupportsImage P ip) as [[] ip1]; [| discriminate].
  destruct (GetFileSystem P ip1) as [imgPath [e|]] eqn:Hfs; [discriminate |].
  destruct (GetConfig P ip1) as [config [e|]] eqn:Hcfg; [discriminate |].
  intros [= <- <-]. done.
Qed.

(** One round of the probing loop. *)
Lemma probe_cons P ps w :
  probe (P :: ps) w =
    let '(supported, ip1) := SupportsImage P (prepper_state w) in
    let w1 := mkWorld ip1 (events w ++ [Call (strategy P) mSupportsImage]) in
    if supported then
      let w2 := mkWorld ip1 (events w1 ++
                  [Glog "INFO" ("Attempting to retrieve image from " +:+ Name P)]) in
      match getImage P w2 with
      | (img, Some e, w3) =>
          probe ps (mkWorld (prepper_state w3) (events w3 ++ [Glog "WARNING" e]))
      | (img, None, w3) => (img, None, w3)
      end
    else probe ps w1.
Proof.
  cbn [probe]. unfold mbind at 1, M_bind at 1, call_SupportsImage at 1.
  destruct (SupportsImage P (prepper_state w)) as [[] ip1]; [| done].
  unfold mbind at 1, M_bind at 1, glog_Infof at 1, emit at 1.
  cbn [prepper_state events]. unfold mbind at 1, M_bind at 1.
  destruct (getImage P _) as [[img [e|]] w3]; done.
Qed.

(** The probing loop, strategy by strategy: it tries a beginning of
    its list in order, stops at the first strategy that claims the
    identifier and delivers, and gives up only behind the last one. *)
Lemma probe_run ps w :
  ∃ tried, tried `prefix_of` ps ∧
    probes (events (probe ps w).2) = probes (events w) ++ (strategy <$> tried) ∧
    match (probe ps w).1 with
    | (img, None) =>
        ∃ before P ip, tried = before ++ [P] ∧
          exhausts before (prepper_state w) ip ∧
          attempt P ip = (Acquired img, prepper_state (probe ps w).2)
    | (img, Some e) =>
        e = "Could not retrieve image from source" ∧ img = Image.zero ∧
        tried = ps ∧
        exhausts ps (prepper_state w) (prepper_state (probe ps w).2)
    end.
Proof.
  revert w. induction ps as [|P ps IH]; intros w.
  - exists []. simpl. rewrite app_nil_r. done.
  - rewrite probe_cons.
    destruct (SupportsImage P (prepper_state w)) as [supported ip1] eqn:Hsup.
    cbn zeta. set (w1 := mkWorld ip1 (events w ++ _)).
    assert (probes (events w1) = probes (events w) ++ [strategy P]) as Hw1.
    { subst w1. simpl. rewrite !probes_app. done. }
    assert (prepper_state w1 = ip1) as Hs1 by done.
    clearbody w1.
    destruct supported.
    + set (w2 := mkWorld ip1 (events w1 ++ _)).
      assert (probes (events w2) = probes (events w) ++ [strategy P]) as Hw2.
      { subst w2. cbn [events]. rewrite probes_app, Hw1. simpl. by rewrite app_nil_r. }
      assert (prepper_state w2 = ip1) as Hs2 by done.
      clearbody w2.
      pose proof (getImage_frame P w2) as [Hst Hpr].
      pose proof (getImage_run P w2) as Hrun.
      rewrite Hs2 in Hst, Hrun. rewrite Hw2 in Hpr. cbn zeta in Hrun.
      destruct (getImage P w2) as [[img err] w3] eqn:Hget.
      cbn [fst snd] in Hst, Hpr.
      destruct err as [e|].
      * set (w4 := mkWorld _ _).
        assert (probes (events w4) = probes (events w) ++ [strategy P]) as Hw4.
        { subst w4. cbn [events]. rewrite probes_app, Hpr. simpl. by rewrite app_nil_r. }
        assert (prepper_state w4 = ip1) as Hs4 by done.
        clearbody w4.
        destruct (IH w4) as (tried & Hpre & Hprobes & Hres).
        exists (P :: tried). split; [by apply prefix_cons |].
        split; [by rewrite Hprobes, Hw4, <-app_assoc |].
        assert (attempt P (prepper_state w) = (Failed e, ip1)) as Hatt.
        { unfold attempt. rewrite Hsup.
          destruct (GetFileSystem P ip1) as [imgPath [e1|]]; [by inversion Hrun |].
          destruct (GetConfig P ip1) as [config [e1|]]; by inversion Hrun. }
        rewrite Hs4 in Hres.
        destruct (probe ps w4) as [[img' [e'|]] w5]; cbn [fst snd] in *.
        -- destruct Hres as (-> & -> & -> & Hex). repeat split; [done..|].
           exists ip1. split; [right; by exists e | done].
        -- destruct Hres as (before & Q & ip & -> & Hex & Hacq).
           exists (P :: before), Q, ip. repeat split; [| done].
           exists ip1. split; [right; by exists e | done].
      * exists [P]. split; [apply prefix_cons, prefix_nil |].
        cbn [fst snd]. split; [done |].
        exists [], P, (prepper_state w). repeat split; [].
        unfold attempt. rewrite Hsup, Hst.
        destruct (GetFileSystem P ip1) as [imgPath [e1|]]; [by inversion Hrun |].
        destruct (GetConfig P ip1) as [config [e1|]]; inversion Hrun; subst.
        done.
    + destruct (IH w1) as (tried & Hpre & Hprobes & Hres).
      exists (P :: tried). split; [by apply prefix_cons |].
      split.
      { rewrite Hprobes, Hw1, <-app_assoc. done. }
      assert (attempt P (prepper_state w) = (Declined, ip1)) as Hatt.
      { unfold attempt. by rewrite Hsup. }
      rewrite Hs1 in Hres.
      destruct (probe ps w1) as [[img' [e'|]] w4]; simpl in *.
      * destruct Hres as (-> & -> & -> & Hex). repeat split; [done..|].
        exists ip1. split; [by left | done].
      * destruct Hres as (before & Q & ip & -> & Hex & Hacq).
        exists (P :: before), Q, ip. repeat split; [| done].
        exists ip1. split; [by left | done].
Qed.

End ResolverFacts.

(** The [getImage] of the image utilities, unlike the one of
    image_prepper.go, hands out an image when [GetConfig] fails: the
    failure goes to the log, and the image carries the configuration that
    came back with the error. *)
Lemma image_utils_getImage_config_failure P w imgPath config e :
  GetFileSystem P (prepper_state w) = (imgPath, None) →
  GetConfig P (prepper_state w) = (config, Some e) →
  image_utils.getImage P w
  = (Image.mk (GetSource P (prepper_state w)) imgPath config, None,
     mkWorld (prepper_state w)
       (events w ++
        [Glog "INFO" ("Retrieving image " +:+ GetSource P (prepper_state w) +:+
                      " from source " +:+ Name P);
         Call (strategy P) mGetFileSystem; Call (strategy P) mGetConfig;
         Glog "ERROR" ("Error retrieving History: " +:+ e);
         Glog "INFO" ("Finished prepping image " +:+
                      GetSource P (prepper_state w))])).
Proof.
  intros Hfs Hcfg.
  unfold image_utils.getImage, call, mbind, M_bind, mret, M_ret, glog_Infof, emit.
  cbn. rewrite Hfs. cbn. rewrite Hcfg. cbn. by rewrite <-!app_assoc.
Qed.

Section ResolverClaims.
Context `{Collaborators}.

(** A resolution, branch by branch. *)
Lemma resolve_run source :
  resolve source =
    let evs := [Glog "INFO" ("Starting prep for image " +:+ source)] in
    if strings.HasPrefix source DaemonPrefix then
      getImage DaemonPrepper
        (mkWorld (ImagePrepper.mk (strings.Replace source DaemonPrefix "" (-1))) evs)
    else if strings.HasPrefix source RemotePrefix then
      getImage CloudPrepper
        (mkWorld (ImagePrepper.mk (strings.Replace source RemotePrefix "" (-1))) evs)
    else probe orderedPreppers (mkWorld (ImagePrepper.mk source) evs).
Proof.
  unfold resolve, GetImage, mbind, M_bind, getSource, glog_Infof, emit, setSource.
  cbn [prepper_state events ImagePrepper.Source app].
  destruct (strings.HasPrefix source DaemonPrefix); [done |].
  destruct (strings.HasPrefix source RemotePrefix); done.
Qed.

(** A resolution under a scheme is [getImage] on the strategy of the
    scheme, in the state that holds the stripped identifier. *)
Lemma resolve_scheme source prefix P :
  (prefix = DaemonPrefix ∧ P = DaemonPrepper) ∨
  (prefix = RemotePrefix ∧ P = CloudPrepper) →
  strings.HasPrefix source prefix = true →
  resolve source =
    getImage P (mkWorld (ImagePrepper.mk (strings.Replace source prefix "" (-1)))
                        [Glog "INFO" ("Starting prep for image " +:+ source)]).
Proof.
  intros [[-> ->]|[-> ->]] Hpre; rewrite resolve_run; cbn zeta.
  - by rewrite Hpre.
  - destruct (strings.HasPrefix source DaemonPrefix) eqn:Hd.
    + apply schemes_exclude in Hd. congruence.
    + by rewrite Hpre.
Qed.

(** C3. An identifier that carries the daemon scheme (or the remote
    scheme) is resolved by the strategy of that scheme alone, on the
    identifier with the scheme stripped: no [SupportsImage] is called on
    any strategy, no method is called on another strategy, and when the
    strategy fails the resolution fails with its error. *)
Theorem scheme_prefix_selects_one_strategy source prefix P img err w :
  (prefix = DaemonPrefix ∧ P = DaemonPrepper) ∨
  (prefix = RemotePrefix ∧ P = CloudPrepper) →
  strings.HasPrefix source prefix = true →
  resolve source = (img, err, w) →
  let ip := ImagePrepper.mk (strings.Replace source prefix "" (-1)) in
  prepper_state w = ip ∧
  probes (events w) = [] ∧
  (∀ k m, Call k m ∈ events w → k = strategy P ∧ m ≠ mSupportsImage) ∧
  match GetFileSystem P ip, GetConfig P ip with
  | (_, Some e), _ => img = Image.zero ∧ err = Some ("error msg: " +:+ e)
  | (_, None), (_, Some e) => img = Image.zero ∧ err = Some ("error msg: " +:+ e)
  | (imgPath, None), (config, None) =>
      img = Image.mk (GetSource P ip) imgPath config ∧ err = None
  end.
Proof.
  intros HP Hpre Hres ip.
  rewrite (resolve_scheme source prefix P HP Hpre) in Hres. fold ip in Hres.
  set (w0 := mkWorld ip _) in Hres.
  pose proof (getImage_frame P w0) as [Hst Hpr].
  pose proof (getImage_calls P w0) as Hcalls.
  pose proof (getImage_run P w0) as Hrun.
  rewrite Hres in Hst, Hpr, Hcalls, Hrun. cbn [fst snd] in Hst, Hpr, Hcalls.
  split; [done |]. split; [done |]. split.
  - intros k m Hin. destruct (Hcalls k m Hin) as [Hold|]; [| done].
    subst w0. cbn [events] in Hold. apply list_elem_of_singleton in Hold. discriminate.
  - subst w0. cbn [prepper_state events] in Hrun. cbn zeta in Hrun.
    destruct (GetFileSystem P ip) as [imgPath [e|]]; [by inversion Hrun |].
    destruct (GetConfig P ip) as [config [e|]]; by inversion Hrun.
Qed.

(** C4. An identifier without a scheme is offered to the local
    daemon, then to the registry, then to the tar strategy; the image
    comes from the first strategy that claims the identifier and
    delivers, a strategy that claims it and fails is passed over, and
    the resolution fails, with its own error, only when the three of
    them have declined or failed. *)
Theorem unprefixed_identifier_probes_in_priority_order source img err w :
  strings.HasPrefix source DaemonPrefix = false →
  strings.HasPrefix source RemotePrefix = false →
  resolve source = (img, err, w) →
  ∃ tried, tried `prefix_of` orderedPreppers ∧
    probes (events w) = strategy <$> tried ∧
    probes (events w) `prefix_of` [Daemon; Cloud; Tar] ∧
    match err with
    | None =>
        ∃ before P ip, tried = before ++ [P] ∧
          exhausts before (ImagePrepper.mk source) ip ∧
          attempt P ip = (Acquired img, prepper_state w)
    | Some e =>
        e = "Could not retrieve image from source" ∧ img = Image.zero ∧
        tried = orderedPreppers ∧
        exhausts orderedPreppers (ImagePrepper.mk source) (prepper_state w)
    end.
Proof.
  intros Hd Hr Hres. rewrite resolve_run, Hd, Hr in Hres. cbn zeta in Hres.
  set (w0 := mkWorld _ _) in Hres.
  destruct (probe_run orderedPreppers w0) as (tried & Hpre & Hprobes & Hspec).
  rewrite Hres in Hprobes, Hspec. cbn [fst snd] in Hprobes, Hspec.
  exists tried. split; [done |]. split; [done |]. split; [| done].
  rewrite Hprobes. cbn [w0 events probes omap app].
  destruct Hpre as [k Hk].
  exists (strategy <$> k).
  change [Daemon; Cloud; Tar] with (strategy <$> orderedPreppers).
  by rewrite Hk, fmap_app.
Qed.

(** [CloudPrepper.SupportsImage] (lines 42-55) claims an identifier
    exactly when it holds no daemon scheme, is no tar path and does NOT
    parse as a reference; it then stores the identifier without remote
    schemes, and otherwise leaves it alone. *)
Lemma CloudPrepper_SupportsImage_true ip :
  (CloudPrepper_SupportsImage ip).1 = true ↔
    strings.Contains (ImagePrepper.Source ip) DaemonPrefix = false ∧
    IsTar (ImagePrepper.Source ip) = false ∧
    reference_Parse (ImagePrepper.Source ip) ≠ None.
Proof.
  unfold CloudPrepper_SupportsImage, daemonRegex_MatchString.
  destruct (strings.Contains _ _), (IsTar _), (reference_Parse _);
    simpl; intuition congruence.
Qed.

Lemma CloudPrepper_SupportsImage_state ip :
  (CloudPrepper_SupportsImage ip).2 =
    if (CloudPrepper_SupportsImage ip).1
    then ImagePrepper.mk (strings.Replace (ImagePrepper.Source ip) RemotePrefix "" (-1))
    else ip.
Proof.
  unfold CloudPrepper_SupportsImage.
  destruct (daemonRegex_MatchString _ || IsTar _)%bool; [done |].
  destruct (reference_Parse _); done.
Qed.

(** The second text of [CloudPrepper.SupportsImage] (lines 110-117)
    claims an identifier exactly when it holds no daemon scheme, parses
    as a reference and is no tar path, and never writes the identifier. *)
Lemma CloudPrepper_SupportsImage'_true ip :
  (CloudPrepper_SupportsImage' ip).1 = true ↔
    strings.Contains (ImagePrepper.Source ip) DaemonPrefix = false ∧
    IsTar (ImagePrepper.Source ip) = false ∧
    reference_Parse (ImagePrepper.Source ip) = None.
Proof.
  unfold CloudPrepper_SupportsImage', daemonRegex_MatchString.
  destruct (strings.Contains _ _), (IsTar _), (reference_Parse _);
    simpl; intuition congruence.
Qed.

Lemma CloudPrepper_SupportsImage'_state ip :
  (CloudPrepper_SupportsImage' ip).2 = ip.
Proof.
  unfold CloudPrepper_SupportsImage'.
  destruct (daemonRegex_MatchString _); [done |].
  destruct (reference_Parse _); done.
Qed.

(** C5. [CloudPrepper.SupportsImage] (lines 42-55) on an identifier
    that parses as a registry reference: it answers false and leaves the
    identifier as it is, whatever the identifier. *)
Theorem CloudPrepper_SupportsImage_refuses_parsed_reference ip :
  reference_Parse (ImagePrepper.Source ip) = None →
  CloudPrepper_SupportsImage ip = (false, ip).
Proof.
  intros Hparse. unfold CloudPrepper_SupportsImage. rewrite Hparse.
  by destruct (daemonRegex_MatchString _ || IsTar _)%bool.
Qed.

(** C6. The [getImage] of image_prepper.go returns the zero image
    and an error when the strategy's [GetConfig] fails.  Under a scheme
    this error ends the resolution.  In the probing loop it does not: the
    error is logged as a warning and the loop goes on with the strategies
    that are left, from the state the failed strategy leaves.  An image
    that a resolution returns without error has its file system and its
    configuration from a strategy whose [GetFileSystem] and [GetConfig]
    both succeeded.  The [getImage] of the image utilities does not fail
    when [GetConfig] fails: it logs the error and returns, without error,
    an image that carries the configuration that came back with it. *)
Theorem config_failure_handling :
  (∀ P w e,
     (GetFileSystem P (prepper_state w)).2 = None →
     (GetConfig P (prepper_state w)).2 = Some e →
     (getImage P w).1 = (Image.zero, Some ("error msg: " +:+ e))) ∧
  (∀ source prefix P e,
     (prefix = DaemonPrefix ∧ P = DaemonPrepper) ∨
     (prefix = RemotePrefix ∧ P = CloudPrepper) →
     strings.HasPrefix source prefix = true →
     let ip := ImagePrepper.mk (strings.Replace source prefix "" (-1)) in
     (GetFileSystem P ip).2 = None → (GetConfig P ip).2 = Some e →
     (resolve source).1 = (Image.zero, Some ("error msg: " +:+ e))) ∧
  (∀ P rest w ip e,
     SupportsImage P (prepper_state w) = (true, ip) →
     (GetFileSystem P ip).2 = None → (GetConfig P ip).2 = Some e →
     probe (P :: rest) w =
       probe rest
         (mkWorld ip
            (events w ++
             [Call (strategy P) mSupportsImage;
              Glog "INFO" ("Attempting to retrieve image from " +:+ Name P);
              Call (strategy P) mGetFileSystem; Call (strategy P) mGetConfig;
              Glog "WARNING" ("error msg: " +:+ e)]))) ∧
  (∀ source img w,
     resolve source = (img, None, w) →
     ∃ P, P ∈ orderedPreppers ∧
       GetFileSystem P (prepper_state w) = (Image.FSPath img, None) ∧
       GetConfig P (prepper_state w) = (Image.Config img, None)) ∧
  (∀ P w imgPath config e,
     GetFileSystem P (prepper_state w) = (imgPath, None) →
     GetConfig P (prepper_state w) = (config, Some e) →
     (image_utils.getImage P w).1
     = (Image.mk (GetSource P (prepper_state w)) imgPath config, None) ∧
     Glog "ERROR" ("Error retrieving History: " +:+ e)
       ∈ events (image_utils.getImage P w).2).
Proof.
  assert (∀ P w e,
            (GetFileSystem P (prepper_state w)).2 = None →
            (GetConfig P (prepper_state w)).2 = Some e →
            getImage P w
            = (Image.zero, Some ("error msg: " +:+ e),
               mkWorld (prepper_state w)
                 (events w ++ [Call (strategy P) mGetFileSystem;
                               Call (strategy P) mGetConfig]))) as Hfail.
  { intros P w e Hfs Hcfg. rewrite getImage_run. cbn zeta.
    destruct (GetFileSystem P _) as [imgPath [e1|]]; [discriminate |].
    destruct (GetConfig P _) as [config [e1|]]; [| discriminate].
    simpl in Hcfg. simplify_eq. by rewrite <-app_assoc. }
  split_and!.
  - intros P w e Hfs Hcfg. by rewrite (Hfail P w e).
  - intros source prefix P e HP Hpre ip Hfs Hcfg.
    rewrite (resolve_scheme source prefix P HP Hpre). fold ip.
    by rewrite (Hfail P _ e).
  - intros P rest w ip e Hsup Hfs Hcfg.
    rewrite probe_cons, Hsup. cbn zeta.
    rewrite (Hfail P _ e) by done. cbn [prepper_state events].
    by rewrite <-!app_assoc.
  - intros source img w Hres.
    assert (∀ P w0, getImage P w0 = (img, None, w) →
              GetFileSystem P (prepper_state w) = (Image.FSPath img, None) ∧
              GetConfig P (prepper_state w) = (Image.Config img, None)) as Hget.
    { intros P w0 Hrun'. pose proof (getImage_frame P w0) as [Hst _].
      pose proof (getImage_run P w0) as Hrun.
      rewrite Hrun' in Hst, Hrun. cbn [snd] in Hst.
      rewrite Hst. cbn zeta in Hrun.
      destruct (GetFileSystem P _) as [imgPath [e1|]]; [discriminate |].
      destruct (GetConfig P _) as [config [e1|]]; [discriminate |].
      by simplify_eq. }
    rewrite resolve_run in Hres. cbn zeta in Hres.
    destruct (strings.HasPrefix source DaemonPrefix).
    { exists DaemonPrepper. split; [apply list_elem_of_here | by eapply Hget]. }
    destruct (strings.HasPrefix source RemotePrefix).
    { exists CloudPrepper.
      split; [apply list_elem_of_further, list_elem_of_here | by eapply Hget]. }
    set (w0 := mkWorld _ _) in Hres.
    destruct (probe_run orderedPreppers w0) as (tried & Hpre & _ & Hspec).
    rewrite Hres in Hspec. cbn [fst snd] in Hspec.
    destruct Hspec as (before & P & ip & -> & _ & Hacq).
    apply attempt_acquired in Hacq as (_ & Hfs & Hcfg & _).
    exists P. split; [| done].
    destruct Hpre as [k ->].
    rewrite !elem_of_app, list_elem_of_singleton. auto.
  - intros P w imgPath config e Hfs Hcfg.
    rewrite (image_utils_getImage_config_failure P w imgPath config e Hfs Hcfg).
    split; [done |]. cbn [snd events].
    rewrite elem_of_app. right.
    do 3 apply list_elem_of_further. apply list_elem_of_here.
Qed.

(** C9. When the identifier carries the daemon scheme or the remote
    scheme, the identifier stored by the resolution is the result of
    [strings.Replace(source, scheme, "", -1)], which is the identifier
    with every byte inside an occurrence of the scheme deleted, wherever
    the occurrence lies; an image returned without error has this text as
    its [Source]. *)
Theorem scheme_prefix_stripped_everywhere source prefix img err w :
  prefix = DaemonPrefix ∨ prefix = RemotePrefix →
  strings.HasPrefix source prefix = true →
  resolve source = (img, err, w) →
  let stripped := strings.Replace source prefix "" (-1) in
  stripped = strings.delete_occurrences prefix 0 source ∧
  ImagePrepper.Source (prepper_state w) = stripped ∧
  (err = None → Image.Source img = stripped).
Proof.
  intros Hp Hpre Hres stripped.
  split.
  { subst stripped. destruct Hp as [-> | ->];
      by apply Replace_deletes_every_occurrence. }
  assert (∃ P, ((prefix = DaemonPrefix ∧ P = DaemonPrepper) ∨
                (prefix = RemotePrefix ∧ P = CloudPrepper)) ∧
               GetSource P = ImagePrepper.Source) as (P & HP & Hsrc).
  { destruct Hp as [-> | ->]; eexists; (split; [by (left + right) | done]). }
  rewrite (resolve_scheme source prefix P HP Hpre) in Hres. fold stripped in Hres.
  set (w0 := mkWorld _ _) in Hres.
  pose proof (getImage_frame P w0) as [Hst _].
  pose proof (getImage_run P w0) as Hrun.
  rewrite Hres in Hst, Hrun. cbn [fst snd] in Hst.
  split; [by rewrite Hst |].
  intros ->. cbn zeta in Hrun.
  destruct (GetFileSystem P _) as [imgPath [e1|]]; [discriminate |].
  destruct (GetConfig P _) as [config [e1|]]; [discriminate |].
  simplify_eq. cbn. by rewrite Hsrc.
Qed.

End ResolverClaims.


(** The claims above, run on the collaborators of [Scenario]. *)

Lemma scheme_prefix_selects_one_strategy_witness :
  let r := @resolve Scenario.registry_only "daemon://gcr.io/gcp-runtimes/multi-base" in
  strings.HasPrefix "daemon://gcr.io/gcp-runtimes/multi-base" DaemonPrefix = true ∧
  prepper_state r.2 = ImagePrepper.mk "gcr.io/gcp-runtimes/multi-base" ∧
  probes (events r.2) = [] ∧
  ∀ k m, Call k m ∈ events r.2 → k = Daemon ∧ m ≠ mSupportsImage.
Proof.
  intros r. destruct r as [[img err] w] eqn:Hres.
  assert (strings.HasPrefix "daemon://gcr.io/gcp-runtimes/multi-base" DaemonPrefix
          = true) as Hpre by (vm_compute; reflexivity).
  split; [exact Hpre |].
  destruct (@scheme_prefix_selects_one_strategy Scenario.registry_only
              "daemon://gcr.io/gcp-runtimes/multi-base" DaemonPrefix
              DaemonPrepper img err w
              (or_introl (conj eq_refl eq_refl)) Hpre Hres)
    as (Hst & Hpr & Hcalls & _).
  split; [exact Hst |]. split; [exact Hpr |]. exact Hcalls.
Defined.

Lemma unprefixed_identifier_probes_in_priority_order_witness :
  let r := @resolve Scenario.registry_only "image.tar" in
  strings.HasPrefix "image.tar" DaemonPrefix = false ∧
  strings.HasPrefix "image.tar" RemotePrefix = false ∧
  probes (events r.2) `prefix_of` [Daemon; Cloud; Tar].
Proof.
  intros r. destruct r as [[img err] w] eqn:Hres.
  assert (strings.HasPrefix "image.tar" DaemonPrefix = false) as Hd
    by (vm_compute; reflexivity).
  assert (strings.HasPrefix "image.tar" RemotePrefix = false) as Hr
    by (vm_compute; reflexivity).
  split; [exact Hd |]. split; [exact Hr |].
  destruct (@unprefixed_identifier_probes_in_priority_order
              Scenario.registry_only "image.tar" img err w Hd Hr Hres)
    as (tried & _ & _ & Hpre & _).
  exact Hpre.
Defined.

Lemma CloudPrepper_SupportsImage_refuses_parsed_reference_witness :
  @reference_Parse Scenario.registry_only "gcr.io/gcp-runtimes/diff-base" = None ∧
  @CloudPrepper_SupportsImage Scenario.registry_only
    (ImagePrepper.mk "gcr.io/gcp-runtimes/diff-base")
  = (false, ImagePrepper.mk "gcr.io/gcp-runtimes/diff-base").
Proof.
  assert (@reference_Parse Scenario.registry_only "gcr.io/gcp-runtimes/diff-base"
          = None) as Hparse by (vm_compute; reflexivity).
  split; [exact Hparse |].
  exact (@CloudPrepper_SupportsImage_refuses_parsed_reference
           Scenario.registry_only
           (ImagePrepper.mk "gcr.io/gcp-runtimes/diff-base") Hparse).
Defined.

Lemma config_failure_handling_witness :
  let w := mkWorld (ImagePrepper.mk "broken/app") [] in
  (@getImage (@CloudPrepper Scenario.registry_only) w).1
  = (Image.zero, Some "error msg: Could not obtain image config") ∧
  (image_utils.getImage (@CloudPrepper Scenario.registry_only) w).1
  = (Image.mk "broken/app" "/tmp/broken/app" ConfigSchema.zero, None).
Proof.
  intros w.
  destruct (@config_failure_handling Scenario.registry_only)
    as (Hown & _ & _ & _ & Hutil).
  split.
  - apply (Hown (@CloudPrepper Scenario.registry_only) w
             "Could not obtain image config"); vm_compute; reflexivity.
  - apply (Hutil (@CloudPrepper Scenario.registry_only) w "/tmp/broken/app"
             ConfigSchema.zero "Could not obtain image config");
      vm_compute; reflexivity.
Defined.

(** A configuration that cannot be had neither keeps the image
    utilities from handing out an image nor ends a resolution: the
    daemon's [GetConfig] fails, and the resolution goes on to the tar
    strategy and succeeds. *)
Lemma config_failure_does_not_abort :
  let w := mkWorld (ImagePrepper.mk "broken/app") [] in
  let r := @resolve Scenario.daemon_without_config "image.tar" in
  (@GetConfig (@CloudPrepper Scenario.registry_only) (prepper_state w)).2
  = Some "Could not obtain image config" ∧
  (image_utils.getImage (@CloudPrepper Scenario.registry_only) w).1
  = (Image.mk "broken/app" "/tmp/broken/app" ConfigSchema.zero, None) ∧
  (@GetConfig (@DaemonPrepper Scenario.daemon_without_config)
     (ImagePrepper.mk "image.tar")).2 = Some "No such image" ∧
  Call Daemon mGetConfig ∈ events r.2 ∧
  r.1 = (Image.mk "image.tar" "/tmp/.container-diff" Scenario.config, None).
Proof.
  intros w r. split_and!; try (vm_compute; reflexivity).
  vm_compute.
  repeat first [apply list_elem_of_here | apply list_elem_of_further].
Qed.

Lemma scheme_prefix_stripped_everywhere_witness :
  let r := @resolve Scenario.registry_only "remote://gcr.io/a/remote://b" in
  strings.HasPrefix "remote://gcr.io/a/remote://b" RemotePrefix = true ∧
  ImagePrepper.Source (prepper_state r.2) = "gcr.io/a/b" ∧
  (r.1.2 = None → Image.Source r.1.1 = "gcr.io/a/b").
Proof.
  intros r. destruct r as [[img err] w] eqn:Hres.
  assert (strings.HasPrefix "remote://gcr.io/a/remote://b" RemotePrefix = true)
    as Hpre by (vm_compute; reflexivity).
  split; [exact Hpre |].
  destruct (@scheme_prefix_stripped_everywhere Scenario.registry_only
              "remote://gcr.io/a/remote://b" RemotePrefix img err w
              (or_intror eq_refl) Hpre Hres)
    as (_ & Hst & Himg).
  split; [exact Hst | exact Himg].
Defined.

(** ** Rendering *)

Section RenderingFacts.
Import cmd.
Context {Payload : Type}.
Variable JSONify : list (option Payload) → string * error.

Abbreviation Result := (Result Payload).

(** *** The order of [sort.Strings] *)

Lemma compare_not_Gt_trans s1 s2 s3 :
  String.compare s1 s2 ≠ Gt → String.compare s2 s3 ≠ Gt →
  String.compare s1 s3 ≠ Gt.
Proof.
  revert s2 s3. induction s1 as [|a s1 IH]; intros [|b s2] [|c s3]; simpl; try done.
  unfold Ascii.compare.
  destruct (N.compare_spec (N_of_ascii a) (N_of_ascii b)) as [Hab|Hab|Hab];
    destruct (N.compare_spec (N_of_ascii b) (N_of_ascii c)) as [Hbc|Hbc|Hbc];
    destruct (N.compare_spec (N_of_ascii a) (N_of_ascii c)) as [Hac|Hac|Hac];
    try done; try lia.
  apply IH.
Qed.

#[local] Instance string_le_trans : Transitive string_le.
Proof.
  intros s1 s2 s3. unfold string_le, String.leb. intros H12 H23.
  pose proof (compare_not_Gt_trans s1 s2 s3) as Htrans.
  destruct (String.compare s1 s2), (String.compare s2 s3),
    (String.compare s1 s3); try done; exfalso; by apply Htrans.
Qed.

#[local] Instance string_le_total : Total string_le.
Proof. intros s1 s2. apply String.leb_total. Qed.

#[local] Instance string_le_antisym : AntiSymm (=) string_le.
Proof. intros s1 s2. apply String.leb_antisym. Qed.

Lemma string_lt_le a b : string_le a b → a ≠ b → string_lt a b.
Proof.
  unfold string_le, string_lt, String.leb, String.ltb. intros Hle Hne.
  destruct (String.compare a b) eqn:Hc; [| done | done].
  by apply String.compare_eq_iff in Hc.
Qed.

Lemma sort_Strings_Permutation l : sort_Strings l ≡ₚ l.
Proof. apply merge_sort_Permutation. Qed.

(** Without repeated names, the sorted names strictly ascend. *)
Lemma sort_Strings_ascending l :
  NoDup l → StronglySorted string_lt (sort_Strings l).
Proof.
  intros Hnd.
  assert (NoDup (sort_Strings l)) as Hnd'
    by (by rewrite sort_Strings_Permutation).
  pose proof (StronglySorted_merge_sort string_le l) as Hs.
  fold (sort_Strings l) in Hs.
  induction Hs as [|x k Hk IH Hx]; [constructor |].
  apply NoDup_cons in Hnd' as [Hx' Hnd']. constructor; [by apply IH |].
  rewrite Forall_forall in Hx |- *. intros y Hy.
  apply string_lt_le; [by apply Hx |]. by intros ->.
Qed.

(** The sorted names do not depend on the order they were met in. *)
Lemma sort_Strings_order_irrelevant l1 l2 :
  l1 ≡ₚ l2 → sort_Strings l1 = sort_Strings l2.
Proof.
  intros Hp. apply (Sorted_unique string_le);
    [apply Sorted_merge_sort, _ | apply Sorted_merge_sort, _ |].
  by rewrite !sort_Strings_Permutation.
Qed.

(** Appending the keys one by one gives the keys. *)
Lemma collect_keys (acc order : list string) :
  foldl (λ acc k, acc ++ [k]) acc order = acc ++ order.
Proof.
  revert acc. induction order as [|k order IH]; intros acc; simpl.
  - by rewrite app_nil_r.
  - by rewrite IH, <-app_assoc.
Qed.

(** A rearrangement of the first components comes from a
    rearrangement of the pairs. *)
Lemma Permutation_fst_inv {A B} (ks : list A) (l : list (A * B)) :
  ks ≡ₚ l.*1 → ∃ rs, rs.*1 = ks ∧ rs ≡ₚ l.
Proof.
  intros Hp. remember (l.*1) as k' eqn:Hk'. revert l Hk'.
  induction Hp as [|x ks k' Hp IH|x y ks|ks k1 k2 Hp1 IH1 Hp2 IH2]; intros l Hk'.
  - exists []. symmetry in Hk'. apply fmap_nil_inv in Hk' as ->. done.
  - symmetry in Hk'. apply fmap_cons_inv in Hk' as (p & l' & -> & -> & ->).
    destruct (IH l' eq_refl) as (rs & <- & Hrs).
    exists (p :: rs). split; [done |]. by constructor.
  - symmetry in Hk'. apply fmap_cons_inv in Hk' as (p & l' & -> & Hk' & ->).
    symmetry in Hk'. apply fmap_cons_inv in Hk' as (q & l'' & -> & -> & ->).
    exists (q :: p :: l''). split; [done |]. apply perm_swap.
  - destruct (IH2 l Hk') as (rs2 & <- & Hrs2).
    destruct (IH1 rs2 eq_refl) as (rs1 & <- & Hrs1).
    exists rs1. split; [done |]. by etrans.
Qed.

(** *** The loop *)

(** The loop over results that are all in the map: in structured form
    it fills the slots from [i] on with the payloads, in text form it
    writes each text and logs each error, and it goes through the whole
    list either way. *)
Lemma render_run json (m : gmap string Result) rs filled out :
  (∀ k r, (k, r) ∈ rs → m !! k = Some r) →
  render json m rs.*1 (length filled) (filled ++ replicate (length rs) None) out =
    Some (if json
          then (filled ++ ((λ r, Some (OutputStruct r.2)) <$> rs), out)
          else (filled ++ replicate (length rs) None,
                out ++ (rs ≫= λ r, Stdout (OutputText r.2 r.1).1
                                     :: log_error (OutputText r.2 r.1).2))).
Proof.
  revert filled out. induction rs as [|[k r] rs IH]; intros filled out Hin.
  - simpl. rewrite !app_nil_r. by destruct json.
  - cbn [fmap list_fmap fst render]. rewrite (Hin k r) by apply list_elem_of_here.
    assert (∀ k' r', (k', r') ∈ rs → m !! k' = Some r') as Hin'.
    { intros k' r' ?. apply Hin. by apply list_elem_of_further. }
    destruct json.
    + rewrite decide_True by (rewrite length_app; simpl; lia).
      cbn [length replicate].
      replace (<[length filled:=Some (OutputStruct r)]>
                 (filled ++ None :: replicate (length rs) None))
        with ((filled ++ [Some (OutputStruct r)]) ++ replicate (length rs) None).
      2:{ rewrite insert_app_r_alt, Nat.sub_diag by lia. simpl.
          by rewrite <-app_assoc. }
      replace (S (length filled)) with (length (filled ++ [Some (OutputStruct r)]))
        by (rewrite length_app; simpl; lia).
      rewrite (IH _ out Hin'). by rewrite <-app_assoc.
    + destruct (OutputText r k) as [text err] eqn:Htext.
      specialize (IH (filled ++ [None]) (out ++ Stdout text :: log_error err) Hin').
      rewrite length_app in IH. simpl in IH.
      replace (S (length filled)) with (length filled + 1) by lia.
      rewrite <-app_assoc in IH. simpl in IH. cbn [length replicate].
      rewrite IH. rewrite bind_cons. cbn [fst snd]. rewrite Htext. cbn [fst snd].
      by rewrite <-!app_assoc.
Qed.

(** [outputResults] renders the results of the map in the ascending
    order of their names, whatever order the map yields them in. *)
Lemma outputResults_run json (m : gmap string Result) order :
  order ≡ₚ (map_to_list m).*1 →
  ∃ rs, rs ≡ₚ map_to_list m ∧
    StronglySorted string_lt rs.*1 ∧
    outputResults JSONify json m order = Some (rendering JSONify json rs).
Proof.
  intros Horder.
  assert (sort_Strings order ≡ₚ (map_to_list m).*1) as Hsorted
    by (by rewrite sort_Strings_Permutation).
  destruct (Permutation_fst_inv _ _ Hsorted) as (rs & Hks & Hrs).
  exists rs. split; [done |]. split.
  { rewrite Hks. apply sort_Strings_ascending. rewrite Horder.
    apply NoDup_fst_map_to_list. }
  unfold outputResults. rewrite collect_keys. cbn [app]. rewrite <-Hks.
  assert (size m = length rs) as ->.
  { by rewrite <-length_map_to_list, Hrs. }
  pose proof (render_run json m rs [] []) as Hrun. cbn [length app] in Hrun.
  rewrite Hrun.
  2:{ intros k r Hin. apply elem_of_map_to_list. by rewrite <-Hrs. }
  unfold rendering. destruct json; cbn [mbind option_bind].
  - by destruct (JSONify _).
  - f_equal. apply list_bind_ext; [| done]. intros [k r]. cbn [fst snd].
    by destruct (OutputText r k).
Qed.

(** C7. Whatever order the map of results is ranged over in, the
    output is the rendering of the results taken in strictly ascending
    order of analyzer name, in structured form and in text form alike,
    and it is the same output for every such order. *)
Theorem results_rendered_in_name_order json (m : gmap string Result) order :
  order ≡ₚ (map_to_list m).*1 →
  (∃ rs, rs ≡ₚ map_to_list m ∧
     StronglySorted string_lt rs.*1 ∧
     outputResults JSONify json m order = Some (rendering JSONify json rs)) ∧
  (∀ order', order' ≡ₚ (map_to_list m).*1 →
     outputResults JSONify json m order' = outputResults JSONify json m order).
Proof.
  intros Horder. split; [by apply outputResults_run |].
  intros order' Horder'. unfold outputResults. rewrite !collect_keys. cbn [app].
  rewrite (sort_Strings_order_irrelevant order' order); [done |].
  by rewrite Horder, Horder'.
Qed.

(** C8. In text mode every result of the map is rendered: its text
    is written, and when [OutputText] returned an error, that error is
    written to the log right behind it; the texts of the other results
    are written before and after it.  The errors in the log are those
    that the results returned, and no others. *)
Theorem text_rendering_continues_after_failure (m : gmap string Result) order :
  order ≡ₚ (map_to_list m).*1 →
  ∃ out, outputResults JSONify false m order = Some out ∧
    (∀ k r, m !! k = Some r →
       ∃ out1 out2,
         out = out1 ++ Stdout (OutputText r k).1 ::
                 match (OutputText r k).2 with
                 | Some e => GlogError e :: out2
                 | None => out2
                 end) ∧
    (∀ e, GlogError e ∈ out ↔
          ∃ k r, m !! k = Some r ∧ (OutputText r k).2 = Some e) ∧
    length (texts out) = size m.
Proof.
  intros Horder.
  destruct (outputResults_run false m order Horder) as (rs & Hrs & _ & Hout).
  eexists. split; [exact Hout |]. unfold rendering. split; [| split].
  - intros k r Hkr.
    assert ((k, r) ∈ rs) as Hin by (rewrite Hrs; by apply elem_of_map_to_list).
    apply list_elem_of_split in Hin as (rs1 & rs2 & ->).
    rewrite bind_app, bind_cons. cbn [fst snd].
    destruct (OutputText r k) as [text [e|]]; cbn [fst snd log_error app]; eauto.
  - intros e. rewrite list_elem_of_bind. split.
    + intros ([k r] & Hin & Hkr). cbn [fst snd] in Hin.
      exists k, r. split; [apply elem_of_map_to_list; by rewrite <-Hrs |].
      destruct (OutputText r k) as [text [e'|]]; cbn [log_error snd] in *.
      * apply elem_of_cons in Hin as [Hin|Hin]; [discriminate |].
        apply list_elem_of_singleton in Hin. congruence.
      * apply elem_of_cons in Hin as [Hin|Hin]; [discriminate |].
        by apply not_elem_of_nil in Hin.
    + intros (k & r & Hkr & He). exists (k, r).
      split; [| rewrite Hrs; by apply elem_of_map_to_list].
      cbn [fst snd]. destruct (OutputText r k) as [text err].
      cbn [snd] in He. subst err. cbn [log_error].
      apply list_elem_of_further, list_elem_of_here.
  - rewrite <-length_map_to_list, <-Hrs. clear.
    induction rs as [|[k r] rs IH]; [done |].
    rewrite bind_cons. cbn [fst snd]. unfold texts in *. rewrite omap_app.
    rewrite length_app, IH.
    by destruct (OutputText r k) as [text [e|]].
Qed.

End RenderingFacts.

Lemma three_results_keys :
  (map_to_list Scenario.three_results).*1 = ["apt"; "file"; "pip"].
Proof. vm_compute. reflexivity. Qed.

Lemma results_rendered_in_name_order_witness :
  cmd.outputResults Scenario.JSONify true Scenario.three_results ["apt"; "pip"; "file"]
  = cmd.outputResults Scenario.JSONify true Scenario.three_results ["pip"; "file"; "apt"].
Proof.
  apply (results_rendered_in_name_order Scenario.JSONify true
           Scenario.three_results ["pip"; "file"; "apt"]);
    rewrite three_results_keys.
  - etrans; [apply perm_swap |]. etrans; [apply perm_skip, perm_swap |].
    apply perm_swap.
  - apply perm_skip, perm_swap.
Defined.

Lemma text_rendering_continues_after_failure_witness :
  ∃ out,
    cmd.outputResults Scenario.JSONify false Scenario.three_results
      ["pip"; "file"; "apt"] = Some out ∧
    cmd.GlogError "template failed" ∈ out ∧
    (∃ out1 out2, out = out1 ++ cmd.Stdout "pip: P" :: out2) ∧
    length (cmd.texts out) = size Scenario.three_results.
Proof.
  destruct (text_rendering_continues_after_failure Scenario.JSONify
              Scenario.three_results ["pip"; "file"; "apt"])
    as (out & Hout & Heach & Herr & Hlen).
  - rewrite three_results_keys.
    etrans; [apply perm_swap |]. etrans; [apply perm_skip, perm_swap |].
    apply perm_swap.
  - exists out. split; [exact Hout |]. split; [| split; [| exact Hlen]].
    + apply Herr.
      exists "apt", (Scenario.text_result "A" (Some "template failed")).
      split; reflexivity.
    + exact (Heach "pip" (Scenario.text_result "P" None) eq_refl).
Defined.

(** The analyzer that fails comes first in name order, and the two
    others are rendered behind it. *)
Example text_rendering_of_three_results :
  cmd.outputResults Scenario.JSONify false Scenario.three_results
    ["pip"; "file"; "apt"]
  = Some [cmd.Stdout "apt: A"; cmd.GlogError "template failed";
          cmd.Stdout "file: F"; cmd.Stdout "pip: P"].
Proof. vm_compute. reflexivity. Qed.

Example structured_rendering_of_three_results :
  cmd.outputResults Scenario.JSONify true Scenario.three_results
    ["pip"; "file"; "apt"]
  = Some [cmd.Stdout "[A,F,P]"].
Proof. vm_compute. reflexivity. Qed.

(** ** Cleanup *)

Section CleanupFacts.
Import image_utils.
Context `{os.System}.

(** C10. [CleanupImage] leaves its image as it was passed.  With an
    empty [FSPath] it leaves the machine as it is: nothing is removed
    and nothing is logged.  With another [FSPath] the one thing it does
    to the file system is one call of [os.RemoveAll] on [FSPath]: the
    file system it leaves is the one that call leaves, so that, as
    [os.RemoveAll] removes nothing but its path and what lies below,
    every name outside the tree of [FSPath] exists afterwards exactly if
    it existed before.  It completes whether or not the removal fails,
    and a failure shows in the log only, as the error of
    [os.RemoveAll]. *)
Theorem CleanupImage_frame image h :
  (CleanupImage image h).1 = image ∧
  (Image.FSPath image = "" → (CleanupImage image h).2 = h) ∧
  (Image.FSPath image ≠ "" →
     let removal := os.RemoveAll (Image.FSPath image) (fs h) in
     fs (CleanupImage image h).2 = removal.1 ∧
     (os.removes_only_the_tree →
      ∀ q, ¬ os.within (Image.FSPath image) q →
           (os.present (fs (CleanupImage image h).2) q ↔ os.present (fs h) q)) ∧
     glog (CleanupImage image h).2 =
       glog h ++
       Glog "INFO" ("Removing image filesystem directory " +:+
                    Image.FSPath image +:+ " from system")
       :: match removal.2 with
          | Some e => [Glog "ERROR" e]
          | None => []
          end).
Proof.
  unfold CleanupImage. split; [| split].
  - case_decide; [| done].
    destruct (os.RemoveAll _ _) as [fs' [e|]]; done.
  - intros Hempty. rewrite decide_False; [done |]. intros Hne. by apply Hne.
  - intros Hpath. cbv zeta. rewrite decide_True by done.
    assert (os.removes_only_the_tree →
            ∀ q, ¬ os.within (Image.FSPath image) q →
                 (os.present (os.RemoveAll (Image.FSPath image) (fs h)).1 q
                  ↔ os.present (fs h) q)) as Hframe.
    { intros Honly q Hout. by apply Honly. }
    destruct (os.RemoveAll _ _) as [fs' [e|]]; cbn [fst snd fs glog] in *.
    + split; [done |]. split; [done |]. by rewrite <-app_assoc.
    + done.
Qed.

End CleanupFacts.

(** The machine of [Scenario] keeps the promise of [os.RemoveAll]. *)
Lemma Scenario_machine_removes_only_the_tree :
  @os.removes_only_the_tree Scenario.machine.
Proof.
  intros path d q Hout. cbn in Hout |- *. rewrite elem_of_filter.
  split; [by intros [_ ?] |]. intros Hq. split; [| done].
  left. by destruct (Scenario.below path q).
Qed.

Lemma CleanupImage_frame_witness :
  let image := Image.mk "gcr.io/a" "/tmp/img2/" ConfigSchema.zero in
  Image.FSPath image ≠ "" ∧
  ¬ @os.within Scenario.machine "/tmp/img2/" "/tmp/img" ∧
  (os.present (image_utils.fs (image_utils.CleanupImage image Scenario.host).2)
              "/tmp/img"
   ↔ os.present (image_utils.fs Scenario.host) "/tmp/img").
Proof.
  intros image.
  assert (¬ @os.within Scenario.machine "/tmp/img2/" "/tmp/img") as Hout.
  { intros Hin. vm_compute in Hin. discriminate. }
  split; [discriminate |]. split; [exact Hout |].
  destruct (CleanupImage_frame image Scenario.host) as (_ & _ & Hrm).
  destruct Hrm as (_ & Hframe & _); [discriminate |].
  exact (Hframe Scenario_machine_removes_only_the_tree "/tmp/img" Hout).
Defined.

(** On that machine a path with a slash at its end names the same
    tree, and the whole tree goes. *)
Example CleanupImage_trailing_slash :
  Scenario.entries
    (image_utils.fs
       (image_utils.CleanupImage
          (Image.mk "gcr.io/a" "/tmp/img2/" ConfigSchema.zero) Scenario.host).2)
  = {["/tmp/img"; "/tmp/img/etc"; "/home"]}.
Proof. vm_compute. reflexivity. Qed.

(** A name that cannot be removed stays with the directory above it,
    and the error in the log names it. *)
Example CleanupImage_locked_entry :
  let h := (image_utils.CleanupImage
              (Image.mk "gcr.io/a" "/tmp/img" ConfigSchema.zero) Scenario.host).2 in
  Scenario.entries (image_utils.fs h) = Scenario.entries (image_utils.fs Scenario.host) ∧
  image_utils.glog h =
    [Glog "INFO" "Removing image filesystem directory /tmp/img from system";
     Glog "ERROR" "unlinkat /tmp/img/etc: permission denied"].
Proof. vm_compute. split; reflexivity. Qed.

Example CleanupImage_empty_path :
  image_utils.CleanupImage Image.zero Scenario.host = (Image.zero, Scenario.host).
Proof. reflexivity. Qed.

(** ** The layer pipeline *)

Section PipelineFacts.
Import image_utils.
Context `{LayerSource}.
Variable layerInfos : list BlobInfo.

Abbreviation exec := (exec layerInfos).
Abbreviation step := (step layerInfos).

Lemma exec_app sched1 sched2 s :
  exec (sched1 ++ sched2) s = exec sched2 (exec sched1 s).
Proof. apply foldl_app. Qed.

Lemma exec_cons t sched s :
  exec (t :: sched) s = exec sched (default s (step t s)).
Proof. done. Qed.

(** A property kept by every step is kept by every execution. *)
Lemma exec_invariant (P : State → Prop) :
  (∀ t s s', step t s = Some s' → P s → P s') →
  ∀ sched s, P s → P (exec sched s).
Proof.
  intros Hstep sched. induction sched as [|t sched IH]; intros s Hs; [done |].
  rewrite exec_cons. apply IH.
  destruct (step t s) as [s'|] eqn:Hst; [by eapply Hstep | done].
Qed.

(** *** The error channel *)

Lemma step_main_quiet s s' : step_main s = Some s' → quiet s → quiet s'.
Proof.
  unfold step_main, quiet. intros Hstep (Hcap & Hbuf & Hmain).
  destruct Hmain as [Hm|[Hm|Hm]]; rewrite Hm in Hstep.
  - simplify_eq. cbn. split_and!; auto.
  - unfold chan_len in Hstep. rewrite Hbuf in Hstep.
    destruct (decide _) as [Hne|_] in Hstep; [by destruct Hne |].
    simplify_eq. cbn. split_and!; auto.
  - discriminate.
Qed.

Lemma step_coordinator_quiet s s' :
  step_coordinator layerInfos s = Some s' → quiet s → quiet s'.
Proof.
  unfold step_coordinator, quiet. intros Hstep (Hcap & Hbuf & Hmain).
  destruct (coordinator s) as [[| i | | |]|]; try discriminate;
    repeat case_decide; simplify_eq; cbn; split_and!; auto.
Qed.

(** On an unbuffered channel that nobody receives from, a send stays
    blocked. *)
Lemma step_send_quiet i msg s : quiet s → step_send i msg s = None.
Proof.
  unfold step_send, quiet, chan_len. intros (Hcap & Hbuf & Hmain).
  rewrite Hcap, Hbuf. destruct (closed (errs s)); [done |].
  cbn. destruct Hmain as [->|[->| ->]]; done.
Qed.

Lemma step_worker_quiet i s s' :
  step_worker layerInfos i s = Some s' → quiet s → quiet s'.
Proof.
  unfold step_worker. intros Hstep Hq.
  destruct (workers s !! i) as [w|]; [| discriminate].
  destruct (layerInfos !! i) as [b|]; [| discriminate].
  destruct w; try discriminate.
  - destruct (GetBlob b); simplify_eq; exact Hq.
  - destruct (DetectCompression bi) as [[[f|] reader]|]; simplify_eq; exact Hq.
  - destruct (f reader); simplify_eq; exact Hq.
  - simplify_eq. exact Hq.
  - destruct (unpackTar reader (dest s)) as [tree err]. simplify_eq. exact Hq.
  - by rewrite step_send_quiet in Hstep.
  - simplify_eq. exact Hq.
Qed.

Lemma step_quiet t s s' : step t s = Some s' → quiet s → quiet s'.
Proof.
  destruct t; [apply step_main_quiet | apply step_coordinator_quiet
              | apply step_worker_quiet].
Qed.

Lemma init_quiet tree : quiet (init tree).
Proof. unfold quiet. cbn. split_and!; auto. Qed.

(** C2. Under every schedule, a value returned by [processLayers]
    is [nil], whatever the workers met; and the body can return at once,
    before a single layer is fetched or written. *)
Theorem processLayers_always_returns_nil tree :
  (∀ sched err, returned (exec sched (init tree)) = Some err → err = None) ∧
  (returned (exec [tMain; tMain] (init tree)) = Some None ∧
   passes (exec [tMain; tMain] (init tree)) = [] ∧
   workers (exec [tMain; tMain] (init tree)) = []).
Proof.
  split; [| done].
  intros sched err Hret.
  pose proof (exec_invariant _ step_quiet sched _ (init_quiet tree))
    as (_ & _ & Hmain).
  unfold returned in Hret.
  destruct Hmain as [Hm|[Hm|Hm]]; rewrite Hm in Hret; by simplify_eq.
Qed.

(** X1. A worker that has an error to report never gets past its
    send: in no execution does it reach its [wg.Done()]. *)
Lemma failed_worker_stays_blocked tree sched i msg :
  workers (exec sched (init tree)) !! i = Some (wSend msg) →
  ∀ sched', workers (exec sched' (exec sched (init tree))) !! i = Some (wSend msg).
Proof.
  intros Hw sched'.
  pose proof (exec_invariant _ step_quiet sched _ (init_quiet tree)) as Hq.
  revert Hw Hq. generalize (exec sched (init tree)). intros s Hw Hq.
  revert s Hw Hq. induction sched' as [|t sched' IH]; intros s Hw Hq; [done |].
  rewrite exec_cons. destruct (step t s) as [s'|] eqn:Hst; [| by apply IH].
  cbn [from_option id]. apply IH; [| by eapply step_quiet].
  destruct t as [| |j]; cbn in Hst.
  - unfold step_main in Hst. repeat case_match; simplify_eq; done.
  - unfold step_coordinator in Hst. repeat case_match; simplify_eq; cbn; try done.
    by apply lookup_app_l_Some.
  - unfold step_worker in Hst.
    destruct (decide (j = i)) as [->|Hne].
    + rewrite Hw in Hst. destruct (layerInfos !! i); [| done].
      by rewrite step_send_quiet in Hst.
    + destruct (workers s !! j) as [w|]; [| done].
      destruct (layerInfos !! j) as [b|]; [| done].
      destruct w; repeat case_match; simplify_eq; cbn;
        rewrite ?list_lookup_insert_ne by done; try done.
      by rewrite step_send_quiet in Hst.
Qed.

(** *** The passes over the destination *)

Lemma lookup_insert_cases (ws : list Worker) i w' j w0 :
  <[i:=w']> ws !! j = Some w0 → (j = i ∧ w0 = w') ∨ (j ≠ i ∧ ws !! j = Some w0).
Proof.
  rewrite list_lookup_insert_Some. intros [(-> & -> & _)|[? ?]]; auto.
Qed.

Lemma lookup_insert_at (ws : list Worker) i w w' :
  ws !! i = Some w → <[i:=w']> ws !! i = Some w'.
Proof. intros Hw. apply list_lookup_insert_eq. by eapply lookup_lt_Some. Qed.

Lemma init_consistent : consistent layerInfos [] [].
Proof.
  split; try (intros ? Hin; by apply not_elem_of_nil in Hin); try done.
  constructor.
Qed.

(** A worker is started. *)
Lemma consistent_spawn ws tr :
  consistent layerInfos ws tr → consistent layerInfos (ws ++ [wGetBlob]) tr.
Proof.
  intros [Hnd Hpair Hfetch Hbw Hew Hub Hh]. split; try done.
  - intros i Hi. destruct (Hbw i Hi) as (w & Hw & ?).
    exists w. split; [by apply lookup_app_l_Some | done].
  - intros i Hi. destruct (Hew i Hi) as (w & Hw & ?).
    exists w. split; [by apply lookup_app_l_Some | done].
  - intros i r [Hw|[_ Hw]]%lookup_app_Some; [by eapply Hub |].
    apply list_lookup_singleton_Some in Hw as [_ ?]. discriminate.
  - intros i w b [Hw|[_ Hw]]%lookup_app_Some Hb; [by eapply Hh |].
    apply list_lookup_singleton_Some in Hw as [_ <-]. done.
Qed.

(** A worker moves without touching the destination. *)
Lemma consistent_silent ws tr i w w' :
  consistent layerInfos ws tr → ws !! i = Some w →
  (begun w → begun w') → (ended w → ended w') →
  (∀ r, w' ≠ wUnpacking r) →
  (∀ b, layerInfos !! i = Some b → holds b w → holds b w') →
  consistent layerInfos (<[i:=w']> ws) tr.
Proof.
  intros [Hnd Hpair Hfetch Hbw Hew Hub Hh] Hw Hb He Hnu Hhold.
  split; try done.
  - intros j Hj. destruct (Hbw j Hj) as (w0 & Hw0 & ?).
    destruct (decide (j = i)) as [->|Hne].
    + exists w'. split; [by eapply lookup_insert_at |]. simplify_eq. auto.
    + exists w0. by rewrite list_lookup_insert_ne.
  - intros j Hj. destruct (Hew j Hj) as (w0 & Hw0 & ?).
    destruct (decide (j = i)) as [->|Hne].
    + exists w'. split; [by eapply lookup_insert_at |]. simplify_eq. auto.
    + exists w0. by rewrite list_lookup_insert_ne.
  - intros j r [[-> Hr]|[_ Hj]]%lookup_insert_cases; [| by eapply Hub].
    by destruct (Hnu r).
  - intros j w0 b [[-> ->]|[_ Hj]]%lookup_insert_cases Hbj; [| by eapply Hh].
    apply Hhold; [done |]. by eapply Hh.
Qed.

(** A worker enters [unpackTar]. *)
Lemma consistent_begin ws tr i r b :
  consistent layerInfos ws tr →
  ws !! i = Some (wUnpack r) → layerInfos !! i = Some b →
  consistent layerInfos (<[i:=wUnpacking r]> ws) (tr ++ [ApplyBegin i]).
Proof.
  intros [Hnd Hpair Hfetch Hbw Hew Hub Hh] Hw Hb.
  assert (ApplyBegin i ∉ tr) as Hfresh.
  { intros Hin. destruct (Hbw i Hin) as (w0 & Hw0 & Hbegun). by simplify_eq. }
  split.
  - apply NoDup_app. split; [done |]. split; [| apply NoDup_singleton].
    intros x Hx ->%list_elem_of_singleton. done.
  - intros q j [Hq|[_ Hq]]%lookup_app_Some.
    + destruct (Hpair q j Hq) as (p & Hp & Hbp).
      exists p. split; [done |]. by apply lookup_app_l_Some.
    + apply list_lookup_singleton_Some in Hq as [_ ?]. discriminate.
  - intros j [Hj|Hj]%elem_of_app; [by apply Hfetch |].
    apply list_elem_of_singleton in Hj as [= ->].
    exists b, r. split; [done |]. by apply (Hh i (wUnpack r) b).
  - intros j [Hj|Hj]%elem_of_app.
    + destruct (Hbw j Hj) as (w0 & Hw0 & ?).
      destruct (decide (j = i)) as [->|Hne]; [by simplify_eq |].
      exists w0. by rewrite list_lookup_insert_ne.
    + apply list_elem_of_singleton in Hj as [= ->].
      exists (wUnpacking r). split; [by eapply lookup_insert_at | done].
  - intros j [Hj|Hj]%elem_of_app.
    + destruct (Hew j Hj) as (w0 & Hw0 & ?).
      destruct (decide (j = i)) as [->|Hne]; [by simplify_eq |].
      exists w0. by rewrite list_lookup_insert_ne.
    + apply list_elem_of_singleton in Hj. discriminate.
  - intros j r' [[-> _]|[_ Hj]]%lookup_insert_cases; apply elem_of_app.
    + right. apply list_elem_of_here.
    + left. by eapply Hub.
  - intros j w0 b' [[-> ->]|[_ Hj]]%lookup_insert_cases Hbj; [| by eapply Hh].
    by apply (Hh i (wUnpack r) b').
Qed.

(** A worker leaves [unpackTar]. *)
Lemma consistent_end ws tr i r w' :
  consistent layerInfos ws tr →
  ws !! i = Some (wUnpacking r) → ended w' → (∀ b, holds b w') →
  consistent layerInfos (<[i:=w']> ws) (tr ++ [ApplyEnd i]).
Proof.
  intros [Hnd Hpair Hfetch Hbw Hew Hub Hh] Hw Hended Hhold.
  assert (ApplyEnd i ∉ tr) as Hfresh.
  { intros Hin. destruct (Hew i Hin) as (w0 & Hw0 & He). by simplify_eq. }
  assert (begun w') as Hbegun by (by destruct w').
  split.
  - apply NoDup_app. split; [done |]. split; [| apply NoDup_singleton].
    intros x Hx ->%list_elem_of_singleton. done.
  - intros q j [Hq|[Hlen Hq]]%lookup_app_Some.
    + destruct (Hpair q j Hq) as (p & Hp & Hbp).
      exists p. split; [done |]. by apply lookup_app_l_Some.
    + apply list_lookup_singleton_Some in Hq as [_ [= <-]].
      destruct (proj1 (list_elem_of_lookup _ _) (Hub i r Hw)) as (p & Hp).
      exists p. split; [| by apply lookup_app_l_Some].
      apply lookup_lt_Some in Hp. lia.
  - intros j [Hj|Hj]%elem_of_app; [by apply Hfetch |].
    apply list_elem_of_singleton in Hj. discriminate.
  - intros j [Hj|Hj]%elem_of_app.
    + destruct (Hbw j Hj) as (w0 & Hw0 & ?).
      destruct (decide (j = i)) as [->|Hne].
      * exists w'. split; [by eapply lookup_insert_at | done].
      * exists w0. by rewrite list_lookup_insert_ne.
    + apply list_elem_of_singleton in Hj. discriminate.
  - intros j [Hj|Hj]%elem_of_app.
    + destruct (Hew j Hj) as (w0 & Hw0 & ?).
      destruct (decide (j = i)) as [->|Hne]; [by simplify_eq |].
      exists w0. by rewrite list_lookup_insert_ne.
    + apply list_elem_of_singleton in Hj as [= Heq]. subst j.
      exists w'. split; [by eapply lookup_insert_at | done].
  - intros j r' [[_ Hr]|[_ Hj]]%lookup_insert_cases; apply elem_of_app.
    + subst w'. done.
    + left. by eapply Hub.
  - intros j w0 b' [[-> ->]|[_ Hj]]%lookup_insert_cases Hbj; [done | by eapply Hh].
Qed.

Lemma step_send_consistent i msg s s' :
  workers s !! i = Some (wSend msg) → step_send i msg s = Some s' →
  consistent layerInfos (workers s) (passes s) →
  consistent layerInfos (workers s') (passes s').
Proof.
  unfold step_send. intros Hw Hstep Hc.
  assert (consistent layerInfos (<[i:=wReturn]> (workers s)) (passes s)) as Hc'.
  { by apply (consistent_silent _ _ i (wSend msg)). }
  repeat case_match; simplify_eq; exact Hc'.
Qed.

Lemma step_worker_consistent i s s' :
  step_worker layerInfos i s = Some s' →
  consistent layerInfos (workers s) (passes s) →
  consistent layerInfos (workers s') (passes s').
Proof.
  unfold step_worker. intros Hstep Hc.
  destruct (workers s !! i) as [w|] eqn:Hw; [| discriminate].
  destruct (layerInfos !! i) as [b|] eqn:Hb; [| discriminate].
  pose proof (worker_holds _ _ _ Hc i w b Hw Hb) as Hhold.
  destruct w; try discriminate.
  - destruct (GetBlob b) as [bi|err] eqn:Hget; simplify_eq; cbn;
      apply (consistent_silent _ _ i wGetBlob); try done.
    intros b' Hb' _. by simplify_eq.
  - cbn in Hhold.
    destruct (DetectCompression bi) as [[[f|] reader]|err] eqn:Hdet;
      simplify_eq; cbn; apply (consistent_silent _ _ i (wDetect bi)); try done;
      intros b' Hb' _; simplify_eq; cbn.
    + by exists bi.
    + unfold fetched. by rewrite Hhold, Hdet.
  - cbn in Hhold. destruct Hhold as (bi & Hget & Hdet).
    destruct (f reader) as [reader'|err] eqn:Hf; simplify_eq; cbn;
      apply (consistent_silent _ _ i (wDecompress f reader)); try done.
    intros b' Hb' _. simplify_eq. cbn. unfold fetched. by rewrite Hget, Hdet, Hf.
  - simplify_eq. cbn. by eapply consistent_begin.
  - destruct (unpackTar reader (dest s)) as [tree err]. simplify_eq. cbn.
    eapply consistent_end; [done | done | by destruct err | by destruct err].
  - by eapply step_send_consistent.
  - simplify_eq. cbn. by apply (consistent_silent _ _ i wReturn).
Qed.

Lemma step_consistent t s s' :
  step t s = Some s' →
  consistent layerInfos (workers s) (passes s) →
  consistent layerInfos (workers s') (passes s').
Proof.
  destruct t as [| |i]; cbn; intros Hstep Hc.
  - unfold step_main in Hstep. repeat case_match; simplify_eq; exact Hc.
  - unfold step_coordinator in Hstep. repeat case_match; simplify_eq; cbn;
      try exact Hc. by apply consistent_spawn.
  - by eapply step_worker_consistent.
Qed.

Lemma exec_consistent sched tree :
  consistent layerInfos (workers (exec sched (init tree)))
                        (passes (exec sched (init tree))).
Proof.
  apply (exec_invariant (λ s, consistent layerInfos (workers s) (passes s)));
    [apply step_consistent | apply init_consistent].
Qed.

(** *** Schedules that apply the layers in a chosen order *)

(** The coordinator starts [j] more workers. *)
Lemma spawn_run j k s :
  coordinator s = Some (cSpawn k) → k + j ≤ length layerInfos →
  exec (replicate j tCoordinator) s =
    mkState (main s) (Some (cSpawn (k + j))) (workers s ++ replicate j wGetBlob)
            (wg s) (errs s) (dest s) (passes s).
Proof.
  revert k s. induction j as [|j IH]; intros k s Hc Hk.
  - destruct s. cbn in *. rewrite Hc, Nat.add_0_r, app_nil_r. done.
  - cbn [replicate]. rewrite exec_cons. cbn [step]. unfold step_coordinator.
    rewrite Hc, decide_True by lia. cbn [from_option id].
    rewrite (IH (S k)); [| done | lia]. cbn.
    rewrite <-app_assoc. cbn. by replace (S (k + j)) with (k + S j) by lia.
Qed.

(** The body starts the coordinator, and the coordinator starts one
    worker per layer. *)
Lemma startup tree :
  exec (tMain :: replicate (S (length layerInfos)) tCoordinator) (init tree) =
    mkState mLen (Some (cSpawn (length layerInfos)))
            (replicate (length layerInfos) wGetBlob)
            (0 + Z.of_nat (length layerInfos)) make_chan tree [].
Proof.
  rewrite exec_cons. cbn [step step_main init main from_option id].
  cbn [replicate]. rewrite exec_cons. cbn.
  by rewrite (spawn_run (length layerInfos) 0).
Qed.

(** A step of the worker [i] that only changes where it stands, put
    in front of a run of that worker. *)
Lemma silent_step_then i s w w1 b tr :
  workers s !! i = Some w → layerInfos !! i = Some b →
  step (tWorker i) s = Some (set_worker i w1 s) →
  (∃ sched w', workers (exec sched (set_worker i w1 s))
                 = <[i:=w']> (workers (set_worker i w1 s)) ∧
               passes (exec sched (set_worker i w1 s))
                 = passes (set_worker i w1 s) ++ tr) →
  ∃ sched w', workers (exec sched s) = <[i:=w']> (workers s) ∧
              passes (exec sched s) = passes s ++ tr.
Proof.
  intros Hw Hb Hstep (sched & w' & Hws & Htr).
  exists (tWorker i :: sched), w'. rewrite exec_cons, Hstep. cbn [from_option id].
  rewrite Hws, Htr. cbn. by rewrite list_insert_insert_eq.
Qed.

(** The worker [i], about to call [unpackTar], makes its pass. *)
Lemma unpack_pass i s b r :
  workers s !! i = Some (wUnpack r) → layerInfos !! i = Some b →
  ∃ sched w',
    workers (exec sched s) = <[i:=w']> (workers s) ∧
    passes (exec sched s) = passes s ++ [ApplyBegin i; ApplyEnd i].
Proof.
  intros Hw Hb. pose proof (lookup_lt_Some _ _ _ Hw) as Hlt.
  destruct (unpackTar r (dest s)) as [tree err] eqn:Hun.
  set (s1 := mkState (main s) (coordinator s) (<[i:=wUnpacking r]> (workers s))
               (wg s) (errs s) (dest s) (passes s ++ [ApplyBegin i])).
  assert (step (tWorker i) s = Some s1) as Hs1.
  { cbn. unfold step_worker. by rewrite Hw, Hb. }
  assert (∃ s2 w', step (tWorker i) s1 = Some s2 ∧
            workers s2 = <[i:=w']> (workers s1) ∧
            passes s2 = passes s1 ++ [ApplyEnd i]) as (s2 & w' & Hs2 & Hws & Htr).
  { cbn. unfold step_worker. cbn [workers dest s1].
    rewrite list_lookup_insert_eq, Hb, Hun by done. eauto. }
  exists [tWorker i; tWorker i], w'.
  rewrite exec_cons, Hs1. cbn [from_option id].
  rewrite exec_cons, Hs2. cbn [from_option id exec foldl].
  rewrite Hws, Htr. cbn. by rewrite list_insert_insert_eq, <-app_assoc.
Qed.

(** A worker whose layer can be fetched runs from its start through
    [unpackTar] while the others stand still. *)
Lemma worker_pass i s b r :
  workers s !! i = Some wGetBlob → layerInfos !! i = Some b →
  fetched b = Some r →
  ∃ sched w',
    workers (exec sched s) = <[i:=w']> (workers s) ∧
    passes (exec sched s) = passes s ++ [ApplyBegin i; ApplyEnd i].
Proof.
  intros Hw Hb Hf. unfold fetched in Hf.
  pose proof (lookup_lt_Some _ _ _ Hw) as Hlt.
  destruct (GetBlob b) as [bi|] eqn:Hget; [| discriminate].
  apply (silent_step_then i s wGetBlob (wDetect bi) b); [done | done | |].
  { cbn. unfold step_worker. by rewrite Hw, Hb, Hget. }
  set (s1 := set_worker i (wDetect bi) s).
  assert (workers s1 !! i = Some (wDetect bi)) as Hw1
    by (by apply list_lookup_insert_eq).
  destruct (DetectCompression bi) as [[[f|] reader]|] eqn:Hdet; [| | discriminate].
  - destruct (f reader) as [reader'|] eqn:Hdec; [| discriminate]. simplify_eq.
    apply (silent_step_then i s1 (wDetect bi) (wDecompress f reader) b);
      [done | done | |].
    { cbn. unfold step_worker. by rewrite Hw1, Hb, Hdet. }
    set (s2 := set_worker i (wDecompress f reader) s1).
    assert (workers s2 !! i = Some (wDecompress f reader)) as Hw2.
    { apply list_lookup_insert_eq. cbn. by rewrite !length_insert. }
    apply (silent_step_then i s2 (wDecompress f reader) (wUnpack r) b);
      [done | done | |].
    { cbn. unfold step_worker. by rewrite Hw2, Hb, Hdec. }
    apply (unpack_pass i _ b r); [| done].
    apply list_lookup_insert_eq. cbn. by rewrite !length_insert.
  - simplify_eq.
    apply (silent_step_then i s1 (wDetect bi) (wUnpack r) b); [done | done | |].
    { cbn. unfold step_worker. by rewrite Hw1, Hb, Hdet. }
    apply (unpack_pass i _ b r); [| done].
    apply list_lookup_insert_eq. cbn. by rewrite !length_insert.
Qed.

(** Workers that have not moved yet can be run one after the other in
    any order. *)
Lemma run_in_order order s :
  NoDup order →
  (∀ i, i ∈ order →
     workers s !! i = Some wGetBlob ∧
     ∃ b r, layerInfos !! i = Some b ∧ fetched b = Some r) →
  ∃ sched, passes (exec sched s) = passes s ++ sequential order.
Proof.
  revert s. induction order as [|i order IH]; intros s Hnd Hall.
  - exists []. cbn. by rewrite app_nil_r.
  - apply NoDup_cons in Hnd as [Hi Hnd].
    destruct (Hall i) as (Hw & b & r & Hb & Hf); [apply list_elem_of_here |].
    destruct (worker_pass i s b r Hw Hb Hf) as (sched1 & w' & Hws & Htr).
    destruct (IH (exec sched1 s) Hnd) as (sched2 & Hrest).
    { intros j Hj. destruct (Hall j) as (Hwj & Hbj); [by apply list_elem_of_further |].
      split; [| done]. rewrite Hws, list_lookup_insert_ne; [done |].
      intros ->. done. }
    exists (sched1 ++ sched2). rewrite exec_app, Hrest, Htr.
    unfold sequential. rewrite bind_cons, <-app_assoc. done.
Qed.

(** C1. Each layer is written by its own worker: under every
    schedule a pass over the destination occurs at most once per layer,
    ends only after it began, and begins only for a layer whose blob was
    fetched and decompressed.  Between the layers no order is kept:
    when every layer can be fetched, each ordering of the layers is the
    order in which some execution writes them, one after the other. *)
Theorem layers_applied_once_in_any_order tree :
  (∀ sched,
     let tr := passes (exec sched (init tree)) in
     NoDup tr ∧ ends_after_begin tr ∧
     ∀ i, ApplyBegin i ∈ tr →
          ∃ b r, layerInfos !! i = Some b ∧ fetched b = Some r) ∧
  (∀ order,
     order ≡ₚ seq 0 (length layerInfos) →
     (∀ b, b ∈ layerInfos → is_Some (fetched b)) →
     ∃ sched, passes (exec sched (init tree)) = sequential order).
Proof.
  split.
  - intros sched tr. destruct (exec_consistent sched tree). done.
  - intros order Hperm Hfetch.
    destruct (run_in_order order
                (exec (tMain :: replicate (S (length layerInfos)) tCoordinator)
                      (init tree))) as (sched & Hsched).
    + rewrite Hperm. apply NoDup_seq.
    + intros i Hi. rewrite Hperm in Hi. apply elem_of_seq in Hi as [_ Hi].
      rewrite startup. cbn [workers].
      split; [by apply lookup_replicate_2 |].
      destruct (lookup_lt_is_Some_2 layerInfos i) as [b Hb]; [done |].
      destruct (Hfetch b) as [r Hr]; [by eapply list_elem_of_lookup_2 |].
      by exists b, r.
    + eexists (_ ++ sched). rewrite exec_app, Hsched, startup. done.
Qed.

End PipelineFacts.

(** The pipeline on the layers of [Scenario]. *)

Example top_layer_written_first :
  image_utils.passes
    (image_utils.exec Scenario.two_layers Scenario.top_first
       Scenario.start)
  = [image_utils.ApplyBegin 1; image_utils.ApplyEnd 1;
     image_utils.ApplyBegin 0; image_utils.ApplyEnd 0].
Proof. vm_compute. reflexivity. Qed.

(** The destination ends up with the base layer written over the top
    layer. *)
Example top_layer_written_first_tree :
  image_utils.dest
    (image_utils.exec Scenario.two_layers Scenario.top_first
       Scenario.start)
  = (["top"; "plain gz base"] : list string).
Proof. vm_compute. reflexivity. Qed.

(** C1, as the spec states it, fails: with two layers there is a
    schedule under which the pass of layer 1 begins and ends before the
    pass of layer 0 begins. *)
Lemma layers_applied_out_of_order :
  ¬ (∀ sched,
       image_utils.in_layer_order
         (image_utils.passes
            (image_utils.exec Scenario.two_layers sched
               Scenario.start))).
Proof.
  intros Hord. specialize (Hord Scenario.top_first).
  rewrite top_layer_written_first in Hord.
  destruct (Hord 0 1 0 2) as [Hbegin _]; [lia | lia | done |].
  by apply Hbegin.
Qed.

Lemma layers_applied_once_in_any_order_witness :
  [1; 0] ≡ₚ seq 0 (length Scenario.two_layers) ∧
  ∃ sched,
    image_utils.passes
      (image_utils.exec Scenario.two_layers sched
         Scenario.start)
    = image_utils.sequential [1; 0].
Proof.
  assert ([1; 0] ≡ₚ seq 0 (length Scenario.two_layers)) as Hperm
    by apply perm_swap.
  split; [exact Hperm |].
  apply (proj2 (@layers_applied_once_in_any_order Scenario.layers_by_name
                  Scenario.two_layers []) [1; 0] Hperm).
  intros b Hb. unfold Scenario.two_layers in Hb.
  apply elem_of_cons in Hb as [->|Hb]; [vm_compute; eauto |].
  apply elem_of_cons in Hb as [->|Hb]; [vm_compute; eauto |].
  by apply not_elem_of_nil in Hb.
Defined.

(** The blob of the only layer cannot be fetched: its worker is blocked
    in its send, the coordinator waits for it, and [processLayers] has
    returned [nil]. *)
Example missing_layer_reported_as_success :
  let s := image_utils.exec Scenario.one_missing_layer
             [image_utils.tMain; image_utils.tCoordinator;
              image_utils.tCoordinator; image_utils.tCoordinator;
              image_utils.tWorker 0; image_utils.tMain;
              image_utils.tWorker 0; image_utils.tCoordinator]
             Scenario.start in
  image_utils.returned s = Some None ∧
  image_utils.workers s
    = [image_utils.wSend "Failed to pull image layer: blob unknown"] ∧
  image_utils.coordinator s = Some image_utils.cWait ∧
  image_utils.dest s = ([] : list string).
Proof. vm_compute. auto. Qed.

Lemma processLayers_always_returns_nil_witness :
  let sched := [image_utils.tMain; image_utils.tCoordinator;
                image_utils.tCoordinator; image_utils.tCoordinator;
                image_utils.tWorker 0; image_utils.tMain] in
  let s := image_utils.exec Scenario.one_missing_layer sched
             Scenario.start in
  ∃ err, image_utils.returned s = Some err ∧ err = None.
Proof.
  intros sched s.
  destruct (image_utils.returned s) as [err|] eqn:Hret.
  - exists err. split; [reflexivity |].
    exact (proj1 (@processLayers_always_returns_nil Scenario.layers_by_name
                    Scenario.one_missing_layer []) sched err Hret).
  - vm_compute in Hret. discriminate.
Defined.

(** ** Splitting and joining *)

Section SplitFacts.
Import strings.

Lemma append_cons x (a b : string) : String x a +:+ b = String x (a +:+ b).
Proof. reflexivity. Qed.

Lemma concat_cons_cons sep x y (l : list string) :
  String.concat sep (x :: y :: l) = x +:+ sep +:+ String.concat sep (y :: l).
Proof. reflexivity. Qed.

Lemma append_assoc (a b c : string) : (a +:+ b) +:+ c = a +:+ (b +:+ c).
Proof. induction a as [|x a IH]; [done |]. by rewrite !append_cons, IH. Qed.

Lemma append_empty_r (a : string) : a +:+ "" = a.
Proof. induction a as [|x a IH]; [done |]. by rewrite append_cons, IH. Qed.

(** A text that begins with [a] is [a] followed by the rest. *)
Lemma prefix_split a s :
  String.prefix a s = true → s = a +:+ from (String.length a) s.
Proof.
  revert s. induction a as [|x a IH]; intros s Hp; [by destruct s |].
  destruct s as [|y s]; [discriminate |].
  apply string_prefix_cons in Hp as [-> Hp].
  cbn [String.length from]. rewrite append_cons. f_equal. by apply IH.
Qed.

Lemma from_from k d s : from k (from d s) = from (d + k) s.
Proof.
  revert s. induction d as [|d IH]; intros s; [done |].
  destruct s as [|c s]; simpl; [by destruct k | apply IH].
Qed.

Lemma split_scan_cons sep skip field s :
  ∃ f fs, split_scan sep skip field s = f :: fs.
Proof.
  revert skip field. induction s as [|c s IH]; intros skip field;
    cbn [split_scan]; [eauto |].
  destruct skip; [| apply IH].
  destruct (String.prefix sep (String c s)); [eauto | apply IH].
Qed.

(** Joining what the scan gives restores the text: the field so far,
    and the text behind the bytes still to be passed. *)
Lemma split_scan_concat sep skip field s :
  sep ≠ "" → skip < String.length sep →
  (0 < skip → String.prefix (from (String.length sep - skip) sep) s = true) →
  String.concat sep (split_scan sep skip field s) = field +:+ from skip s.
Proof.
  intros Hne. revert skip field. induction s as [|c s IH]; intros skip field Hskip Hin.
  - cbn [split_scan String.concat].
    replace (from skip "") with "" by (by destruct skip).
    by rewrite append_empty_r.
  - destruct skip as [|k].
    + cbn [split_scan from].
      destruct (String.prefix sep (String c s)) eqn:Hocc.
      * destruct (split_scan_cons sep (String.length sep - 1) "" s) as (f & fs & Hfs).
        rewrite Hfs, concat_cons_cons, <-Hfs. rewrite IH; [| lia |].
        -- change ("" +:+ ?x) with x. f_equal.
           etrans; [| symmetry; apply (prefix_split _ _ Hocc)]. f_equal.
           destruct sep as [|x sep]; [done |].
           cbn [String.length from Nat.sub]. by rewrite Nat.sub_0_r.
        -- intros _.
           replace (String.length sep - (String.length sep - 1)) with 1 by lia.
           by apply (prefix_from_step sep 0 c); [lia |].
      * rewrite IH; [| lia | lia]. by rewrite append_assoc.
    + cbn [split_scan from]. apply IH; [lia |]. intros Hpos.
      replace (String.length sep - k) with (S (String.length sep - S k)) by lia.
      apply (prefix_from_step sep _ c); [lia |]. apply Hin. lia.
Qed.

(** Joining the fields of [strings.Split(s, sep)] with [sep]
    gives [s] back, for every non-empty separator. *)
Theorem Join_Split s sep : sep ≠ "" → Join (Split s sep) sep = s.
Proof.
  intros Hne. unfold Join, Split. destruct sep as [|x sep']; [done |].
  rewrite split_scan_concat; [done | done | cbn; lia | lia].
Qed.

(** [strings.Split] with a non-empty separator gives at least one
    field, also for the empty text. *)
Lemma Split_not_nil s sep : sep ≠ "" → Split s sep ≠ [].
Proof.
  intros Hne. unfold Split. destruct sep; [done |].
  destruct (split_scan_cons (String a sep) 0 "" s) as (f & fs & ->). done.
Qed.

(** Behind a trailing comma there is an empty last field. *)
Lemma split_trailing_comma field s :
  last (split_scan "," 0 field (s +:+ ",")) = Some "".
Proof.
  revert field. induction s as [|c s IH]; intros field; [done |].
  rewrite append_cons. cbn [split_scan].
  destruct (String.prefix "," (String c (s +:+ ","))).
  - change (String.length "," - 1) with 0. specialize (IH "").
    destruct (split_scan_cons "," 0 "" (s +:+ ",")) as (f & fs & Hfs).
    rewrite Hfs in IH |- *. by rewrite last_cons, IH.
  - apply IH.
Qed.

End SplitFacts.

Lemma Join_Split_witness :
  strings.Join (strings.Split "node,pip,apt" ",") "," = "node,pip,apt".
Proof. by apply Join_Split. Defined.

(** ** Validating the arguments *)

Section ValidationFacts.
Import cmd.
Context {Analyzer : Type}.
Variable Analyzers : gmap string Analyzer.

(** X2. [validateArgs] returns [nil] exactly when every validator
    accepts the arguments, and otherwise the error of the first validator
    that rejects them. *)
Theorem validateArgs_first_failure args (fs : list validatefxn) :
  match validateArgs args fs with
  | None => ∀ f, f ∈ fs → f args = None
  | Some e =>
      ∃ passed f rest, fs = passed ++ f :: rest ∧
        (∀ g, g ∈ passed → g args = None) ∧ f args = Some e
  end.
Proof.
  induction fs as [|f fs IH]; cbn [validateArgs].
  - intros f Hf. by apply not_elem_of_nil in Hf.
  - destruct (f args) as [e|] eqn:Hf.
    + exists [], f, fs. split; [done |]. split; [| done].
      intros g Hg. by apply not_elem_of_nil in Hg.
    + destruct (validateArgs args fs) as [e|].
      * destruct IH as (passed & g & rest & -> & Hpassed & Hg).
        exists (f :: passed), g, rest. split; [done |]. split; [| done].
        intros h [->|Hh]%elem_of_cons; [done | by apply Hpassed].
      * intros g [->|Hg]%elem_of_cons; [done | by apply IH].
Qed.

(** The loop over the names stops at the first name that is not
    registered. *)
Lemma check_names_run names :
  match check_names Analyzers names with
  | None => ∀ name, name ∈ names → is_Some (Analyzers !! name)
  | Some e =>
      ∃ before name after, names = before ++ name :: after ∧
        (∀ n, n ∈ before → is_Some (Analyzers !! n)) ∧
        Analyzers !! name = None ∧
        e = "Argument " +:+ name +:+ " is not a valid analyzer"
  end.
Proof.
  induction names as [|name names IH]; cbn [check_names].
  - intros name Hn. by apply not_elem_of_nil in Hn.
  - destruct (Analyzers !! name) as [a|] eqn:Hname.
    + destruct (check_names Analyzers names) as [e|].
      * destruct IH as (before & bad & after & -> & Hbefore & Hbad & ->).
        exists (name :: before), bad, after. split; [done |]. split; [| done].
        intros n [->|Hn]%elem_of_cons; [by rewrite Hname | by apply Hbefore].
      * intros n [->|Hn]%elem_of_cons; [by rewrite Hname | by apply IH].
    + exists [], name, names. split; [done |]. split; [| done].
      intros n Hn. by apply not_elem_of_nil in Hn.
Qed.

(** X3. [checkIfValidAnalyzer] accepts a flag exactly when the flag
    is not empty and every comma-separated name in it is registered. *)
Theorem checkIfValidAnalyzer_accepts flagtypes :
  checkIfValidAnalyzer Analyzers flagtypes = None ↔
    flagtypes ≠ "" ∧
    ∀ name, name ∈ strings.Split flagtypes "," → is_Some (Analyzers !! name).
Proof.
  unfold checkIfValidAnalyzer.
  destruct (String.eqb_spec flagtypes "") as [->|Hne].
  - split; [discriminate | by intros [? _]].
  - pose proof (check_names_run (strings.Split flagtypes ",")) as Hrun.
    destruct (check_names Analyzers _) as [e|].
    + split; [discriminate |]. intros [_ Hall].
      destruct Hrun as (before & name & after & Hsplit & _ & Hbad & _).
      destruct (Hall name) as [a Ha]; [| congruence].
      rewrite Hsplit, elem_of_app, elem_of_cons. auto.
    + done.
Qed.

(** X4. The error of [checkIfValidAnalyzer] tells what is wrong: the
    flag is empty, or it names the first of the comma-separated names
    that is not registered. *)
Theorem checkIfValidAnalyzer_rejects flagtypes e :
  checkIfValidAnalyzer Analyzers flagtypes = Some e →
  (flagtypes = "" ∧ e = "Please provide at least one analyzer to run") ∨
  (∃ before name after,
     strings.Split flagtypes "," = before ++ name :: after ∧
     (∀ n, n ∈ before → is_Some (Analyzers !! n)) ∧
     Analyzers !! name = None ∧
     e = "Argument " +:+ name +:+ " is not a valid analyzer").
Proof.
  unfold checkIfValidAnalyzer.
  destruct (String.eqb_spec flagtypes "") as [->|Hne].
  - intros [= <-]. by left.
  - intros He. right.
    pose proof (check_names_run (strings.Split flagtypes ",")) as Hrun.
    rewrite He in Hrun. exact Hrun.
Qed.

(** X5. A flag that ends in a comma is rejected, unless the empty
    name is registered: behind the last comma [strings.Split] leaves an
    empty name. *)
Theorem checkIfValidAnalyzer_trailing_comma flagtypes :
  Analyzers !! "" = None →
  is_Some (checkIfValidAnalyzer Analyzers (flagtypes +:+ ",")).
Proof.
  intros Hempty.
  destruct (checkIfValidAnalyzer Analyzers (flagtypes +:+ ",")) as [e|] eqn:Hcheck;
    [by eexists |].
  apply checkIfValidAnalyzer_accepts in Hcheck as [_ Hall].
  destruct (Hall "") as [a Ha]; [| congruence].
  unfold strings.Split. apply last_Some_elem_of, split_trailing_comma.
Qed.

End ValidationFacts.

Lemma Scenario_analyzers_lookup name :
  name ∈ ["apt"; "file"; "history"; "node"; "pip"] →
  is_Some (Scenario.analyzers !! name).
Proof.
  intros Hin. repeat (apply elem_of_cons in Hin as [->|Hin]; [by eexists |]).
  by apply not_elem_of_nil in Hin.
Qed.

Lemma checkIfValidAnalyzer_accepts_witness :
  cmd.checkIfValidAnalyzer Scenario.analyzers "node,pip,apt" = None.
Proof.
  apply checkIfValidAnalyzer_accepts. split; [discriminate |].
  intros name Hin. apply Scenario_analyzers_lookup.
  change (strings.Split "node,pip,apt" ",") with ["node"; "pip"; "apt"] in Hin.
  repeat (apply elem_of_cons in Hin as [->|Hin];
          [repeat constructor |]).
  by apply not_elem_of_nil in Hin.
Defined.

Lemma checkIfValidAnalyzer_rejects_witness :
  ∃ before name after,
    strings.Split "apt,rpm" "," = before ++ name :: after ∧
    (∀ n, n ∈ before → is_Some (Scenario.analyzers !! n)) ∧
    Scenario.analyzers !! name = None ∧
    "Argument rpm is not a valid analyzer"
    = "Argument " +:+ name +:+ " is not a valid analyzer".
Proof.
  destruct (checkIfValidAnalyzer_rejects Scenario.analyzers "apt,rpm"
              "Argument rpm is not a valid analyzer")
    as [[Hempty _]|Hname]; [by vm_compute | discriminate | exact Hname].
Defined.

Lemma checkIfValidAnalyzer_trailing_comma_witness :
  is_Some (cmd.checkIfValidAnalyzer Scenario.analyzers ("apt" +:+ ",")).
Proof. apply checkIfValidAnalyzer_trailing_comma. reflexivity. Defined.

(** ** The image utilities on a reference *)

Section ReferenceFacts.
Import image_utils.
Context `{Reference}.

(** Replacing a one-byte text by nothing drops that byte wherever it
    stands. *)
Lemma replace_scan_byte c s :
  strings.replace_scan (String c "") "" None 0 s =
    String.string_of_list_ascii (filter (λ x, x ≠ c) (String.list_ascii_of_string s)).
Proof.
  induction s as [|x s IH]; [done |].
  cbn [strings.replace_scan String.list_ascii_of_string].
  assert (String.prefix (String c "") (String x s) = bool_decide (c = x)) as ->.
  { cbn [String.prefix]. destruct (ascii_dec c x) as [->|Hne].
    - rewrite bool_decide_eq_true_2 by done. by destruct s.
    - by rewrite bool_decide_eq_false_2. }
  case_bool_decide as Hc.
  - subst x. rewrite filter_cons_False by (by intros Hne; apply Hne).
    change (String.length (String c "") - 1) with 0. exact IH.
  - rewrite filter_cons_True by congruence.
    cbn [String.string_of_list_ascii]. by rewrite IH.
Qed.

(** X6. The directory name made of an image name is the image name
    without its colons and slashes, every other byte kept in place. *)
Theorem sanitizedName_bytes imageName :
  String.list_ascii_of_string (sanitizedName imageName) =
    filter (λ x, x ≠ "/"%char ∧ x ≠ ":"%char) (String.list_ascii_of_string imageName).
Proof.
  unfold sanitizedName, strings.Replace.
  cbn [String.eqb Ascii.eqb orb Z.eqb Z.ltb Z.compare].
  change ":" with (String ":"%char ""). change "/" with (String "/"%char "").
  rewrite !replace_scan_byte, !String.list_ascii_of_string_of_list_ascii.
  by rewrite list_filter_filter.
Qed.

(** The value [processLayers] returns is [nil], for every list of
    layers and every schedule. *)
Lemma returned_nil layerInfos sched tree err :
  returned (exec layerInfos sched (init tree)) = Some err → err = None.
Proof.
  intros Hret.
  pose proof (exec_invariant layerInfos _ (step_quiet layerInfos) sched _
                (init_quiet tree)) as (_ & _ & Hmain).
  unfold returned in Hret.
  destruct Hmain as [Hm|[Hm|Hm]]; rewrite Hm in Hret; by simplify_eq.
Qed.

(** X7. What [getFileSystemFromReference] returns is either the
    temporary directory and no error, when the directory, the image and
    the image source were obtained, or the empty path and the error of
    the first of these three that failed.  Nothing the layers run into
    shows in the result. *)
Theorem getFileSystemFromReference_result ref imageName sched p err log :
  getFileSystemFromReference ref imageName sched = Some ((p, err), log) →
  (err = None ∧ log = [] ∧ ioutil_TempDir "" (sanitizedName imageName) = inl p ∧
   (∃ img, NewImage ref = inl img) ∧ NewImageSource ref = None) ∨
  (p = "" ∧ ∃ e, err = Some e ∧
     (ioutil_TempDir "" (sanitizedName imageName) = inr e ∨
      (∃ path, ioutil_TempDir "" (sanitizedName imageName) = inl path) ∧
      (NewImage ref = inr e ∨
       (∃ img, NewImage ref = inl img) ∧ NewImageSource ref = Some e))).
Proof.
  unfold getFileSystemFromReference. intros Hres.
  destruct (ioutil_TempDir "" (sanitizedName imageName)) as [path|e] eqn:Htmp.
  2:{ simplify_eq. right. split; [done |]. exists e. auto. }
  destruct (NewImage ref) as [img|e] eqn:Himg.
  2:{ simplify_eq. right. split; [done |]. exists e. split; [done |]. right.
      split; [by eexists | by left]. }
  destruct (NewImageSource ref) as [e|] eqn:Hsrc.
  { simplify_eq. right. split; [done |]. exists e. split; [done |]. right.
    split; [by eexists |]. right. split; [by eexists | done]. }
  destruct (returned _) as [err'|] eqn:Hret; [| discriminate].
  cbn in Hres. simplify_eq. apply returned_nil in Hret as ->.
  left. split_and!; eauto.
Qed.

(** X8. [getConfigFromReference] reports every failure with one and
    the same error and the zero configuration; what went wrong is
    written to the log only, as one error line that names the image and
    carries the error of the call that failed: [ref.NewImage], then
    [img.ConfigBlob], then [json.Unmarshal].  Without error it returns
    the decoded blob and logs nothing. *)
Theorem getConfigFromReference_result ref source :
  match getConfigFromReference ref source with
  | (config, Some e, log) =>
      config = ConfigSchema.zero ∧ e = "Could not obtain image config" ∧
      ((∃ cause, NewImage ref = inr cause ∧
          log = [Glog "ERROR" ("Error referencing image " +:+ source +:+
                               " from registry: " +:+ cause)]) ∨
       ∃ img, NewImage ref = inl img ∧
         ((∃ cause, ConfigBlob img = inr cause ∧
             log = [Glog "ERROR" ("Error obtaining config blob for image " +:+
                                  source +:+ " from registry: " +:+ cause)]) ∨
          ∃ blob cause, ConfigBlob img = inl blob ∧
            json_Unmarshal blob = inr cause ∧
            log = [Glog "ERROR" ("Error with config file struct for image " +:+
                                 source +:+ ": " +:+ cause)]))
  | (config, None, log) =>
      log = [] ∧
      ∃ img blob, NewImage ref = inl img ∧ ConfigBlob img = inl blob ∧
                  json_Unmarshal blob = inl config
  end.
Proof.
  unfold getConfigFromReference.
  destruct (NewImage ref) as [img|cause]; [| split_and!; eauto].
  destruct (ConfigBlob img) as [blob|cause] eqn:Hblob.
  2:{ split_and!; eauto. right. exists img. eauto. }
  destruct (json_Unmarshal blob) as [config|cause] eqn:Hjson.
  - split; [done |]. by exists img, blob.
  - split_and!; eauto. right. exists img. split; [done |]. right. eauto.
Qed.

End ReferenceFacts.

Lemma getFileSystemFromReference_result_witness :
  let sched := [image_utils.tMain; image_utils.tCoordinator;
                image_utils.tCoordinator; image_utils.tWorker 0;
                image_utils.tMain] in
  @image_utils.getFileSystemFromReference _ Scenario.one_image
    "library/bad:1.0" "library/bad:1.0" sched
  = Some (("/tmp/librarybad1.0123", None), []).
Proof.
  intros sched.
  destruct (@image_utils.getFileSystemFromReference _ Scenario.one_image
              "library/bad:1.0" "library/bad:1.0" sched)
    as [[[p err] log]|] eqn:Hres; [| vm_compute in Hres; discriminate].
  destruct (@getFileSystemFromReference_result _ Scenario.one_image
              "library/bad:1.0" "library/bad:1.0" sched p err log Hres)
    as [(-> & -> & Hp & _)|(-> & e & -> & Hfail)].
  - vm_compute in Hp. by simplify_eq.
  - vm_compute in Hres. discriminate.
Defined.

(** The configuration of this image does not decode. *)
Example getConfigFromReference_masks_cause :
  @image_utils.getConfigFromReference _ Scenario.one_image
    "library/bad:1.0" "library/bad:1.0"
  = ((ConfigSchema.zero, Some "Could not obtain image config"),
     [Glog "ERROR" "Error with config file struct for image library/bad:1.0: unexpected end of JSON input"]).
Proof. vm_compute. reflexivity. Qed.

(** ** More on the layer pipeline *)

Section PipelineMore.
Import image_utils.
Context `{LayerSource}.
Variable layerInfos : list BlobInfo.

Abbreviation run := (image_utils.exec layerInfos).
Abbreviation move := (image_utils.step layerInfos).

(** *** The body returns without waiting *)

(** While the channel is quiet, nobody but the body moves the body. *)
Lemma main_frame t s s' :
  move t s = Some s' → t ≠ tMain → quiet s → main s' = main s.
Proof.
  intros Hstep Ht Hq. destruct t as [| |i]; [done | |]; cbn in Hstep.
  - unfold step_coordinator in Hstep. repeat case_match; by simplify_eq.
  - unfold step_worker in Hstep.
    repeat case_match; simplify_eq; try done.
    by rewrite step_send_quiet in Hstep.
Qed.

Lemma body_returns sched s :
  quiet s →
  match main s with
  | mGo => 2
  | mLen => 1
  | _ => 0
  end ≤ length (filter (λ t, t = tMain) sched) →
  returned (run sched s) = Some None.
Proof.
  revert s. induction sched as [|t sched IH]; intros s Hq Hn.
  - destruct Hq as (_ & _ & [Hm|[Hm|Hm]]); rewrite Hm in Hn; cbn in Hn; try lia.
    unfold returned. cbn. by rewrite Hm.
  - rewrite exec_cons. destruct (decide (t = tMain)) as [->|Ht].
    + rewrite filter_cons_True in Hn by done. cbn [length] in Hn.
      destruct (move tMain s) as [s'|] eqn:Hstep; cbn [from_option id].
      * pose proof (step_quiet _ _ _ _ Hstep Hq) as Hq'.
        apply IH; [done |]. cbn in Hstep. unfold step_main in Hstep.
        destruct Hq as (_ & Hbuf & _). unfold chan_len in Hstep.
        rewrite Hbuf in Hstep.
        destruct (main s); repeat case_match; simplify_eq; cbn; try lia; done.
      * apply IH; [done |]. cbn in Hstep. unfold step_main in Hstep.
        destruct (main s); repeat case_match; simplify_eq; lia.
    + rewrite filter_cons_False in Hn by done.
      destruct (move t s) as [s'|] eqn:Hstep; cbn [from_option id]; [| by apply IH].
      apply IH; [by eapply step_quiet |].
      by rewrite (main_frame _ _ _ Hstep Ht Hq).
Qed.

(** X9. [processLayers] returns [nil] as soon as its own goroutine
    has been scheduled twice, however the goroutines of the layers are
    scheduled in between: it waits for none of them. *)
Theorem processLayers_returns_without_waiting tree sched :
  2 ≤ length (filter (λ t, t = tMain) sched) →
  returned (run sched (init tree)) = Some None.
Proof. intros Hn. apply body_returns; [apply init_quiet | done]. Qed.

(** *** The destination when the passes follow one another

    The state records what a pass wrote when the pass ends; what two
    passes that overlap in time leave behind is not told apart from what
    they leave when one follows the other.  The lemmas of this part serve
    executions in which the passes do follow one another. *)

Lemma ended_layers_app tr1 tr2 :
  ended_layers (tr1 ++ tr2) = ended_layers tr1 ++ ended_layers tr2.
Proof. apply omap_app. Qed.

Lemma dest_step tree t s s' :
  move t s = Some s' →
  consistent layerInfos (workers s) (passes s) →
  dest s = foldl (apply_layer layerInfos) tree (ended_layers (passes s)) →
  dest s' = foldl (apply_layer layerInfos) tree (ended_layers (passes s')).
Proof.
  intros Hstep Hc Hd. destruct t as [| |i]; cbn in Hstep.
  - unfold step_main in Hstep. repeat case_match; by simplify_eq.
  - unfold step_coordinator in Hstep. repeat case_match; by simplify_eq.
  - unfold step_worker in Hstep.
    destruct (workers s !! i) as [w|] eqn:Hw; [| discriminate].
    destruct (layerInfos !! i) as [b|] eqn:Hb; [| discriminate].
    pose proof (worker_holds _ _ _ Hc i w b Hw Hb) as Hhold.
    destruct w; try discriminate.
    + destruct (GetBlob b); by simplify_eq.
    + destruct (DetectCompression bi) as [[[f|] reader]|]; by simplify_eq.
    + destruct (f reader); by simplify_eq.
    + simplify_eq. cbn. rewrite ended_layers_app. cbn. by rewrite app_nil_r.
    + destruct (unpackTar reader (dest s)) as [tree' err] eqn:Hun.
      simplify_eq. cbn in Hhold |- *.
      rewrite ended_layers_app, foldl_app. cbn. rewrite <-Hd.
      unfold apply_layer. rewrite Hb. cbn. by rewrite Hhold, Hun.
    + unfold step_send in Hstep. repeat case_match; by simplify_eq.
    + by simplify_eq.
Qed.

Lemma dest_fold tree sched :
  dest (run sched (init tree)) =
    foldl (apply_layer layerInfos) tree (ended_layers (passes (run sched (init tree)))).
Proof.
  apply (exec_invariant layerInfos
           (λ s, consistent layerInfos (workers s) (passes s) ∧
                 dest s = foldl (apply_layer layerInfos) tree
                            (ended_layers (passes s)))).
  - intros t s s' Hstep [Hc Hd]. split; [by eapply step_consistent |].
    by eapply dest_step.
  - split; [apply init_consistent | done].
Qed.

Lemma ended_layers_sequential order : ended_layers (sequential order) = order.
Proof.
  induction order as [|i order IH]; [done |].
  unfold sequential in *. rewrite bind_cons, ended_layers_app, IH. done.
Qed.

(** X11. When every layer can be fetched, each ordering of the
    layers is the order in which some execution writes them: the tree
    left behind can be the one of any ordering. *)
Theorem destination_of_any_order tree order :
  order ≡ₚ seq 0 (length layerInfos) →
  (∀ b, b ∈ layerInfos → is_Some (fetched b)) →
  ∃ sched, dest (run sched (init tree)) = foldl (apply_layer layerInfos) tree order.
Proof.
  intros Hperm Hfetch.
  destruct (run_in_order layerInfos order
              (run (tMain :: replicate (S (length layerInfos)) tCoordinator)
                   (init tree))) as (sched & Hsched).
  - rewrite Hperm. apply NoDup_seq.
  - intros i Hi. rewrite Hperm in Hi. apply elem_of_seq in Hi as [_ Hi].
    rewrite startup. cbn [workers].
    split; [by apply lookup_replicate_2 |].
    destruct (lookup_lt_is_Some_2 layerInfos i) as [b Hb]; [done |].
    destruct (Hfetch b) as [r Hr]; [by eapply list_elem_of_lookup_2 |].
    by exists b, r.
  - eexists (_ ++ sched). rewrite dest_fold, exec_app, Hsched, startup.
    cbn [passes app]. by rewrite ended_layers_sequential.
Qed.

(** *** The wait group and the close of the channel *)

Lemma finished_app ws1 ws2 : finished (ws1 ++ ws2) = finished ws1 + finished ws2.
Proof. apply sum_list_with_app. Qed.

Lemma finished_le ws : finished ws ≤ length ws.
Proof.
  induction ws as [|w ws IH]; [done |].
  cbn. destruct (is_done w); unfold finished in IH; lia.
Qed.

(** Putting [w'] in the place of [w] moves the count by what the two
    count for. *)
Lemma finished_insert ws i w w' :
  ws !! i = Some w →
  finished (<[i:=w']> ws) + (if is_done w then 1 else 0) =
    finished ws + (if is_done w' then 1 else 0).
Proof.
  intros Hw. pose proof (lookup_lt_Some _ _ _ Hw) as Hlt.
  rewrite insert_take_drop by done.
  rewrite <-(take_drop_middle ws i w Hw) at 3.
  rewrite !finished_app. cbn. lia.
Qed.

Lemma finished_all ws i w :
  finished ws = length ws → ws !! i = Some w → is_done w = true.
Proof.
  revert i. induction ws as [|x ws IH]; intros i Hall Hw; [done |].
  pose proof (finished_le ws) as Hle. cbn in Hall. unfold finished in *.
  destruct (is_done x) eqn:Hx; [| lia].
  destruct i as [|i]; cbn in Hw; [by simplify_eq |].
  apply (IH i); [lia | done].
Qed.

(** A worker that moves without finishing leaves the account as it is. *)
Lemma accounted_at_update c ws g cl i w w' :
  ws !! i = Some w → is_done w = false → is_done w' = false →
  accounted_at layerInfos c ws g cl →
  accounted_at layerInfos c (<[i:=w']> ws) g cl.
Proof.
  intros Hw Hd Hd' [Hacc Hcl].
  pose proof (finished_insert ws i w w' Hw) as Hfin. rewrite Hd, Hd' in Hfin.
  split; [| done].
  destruct c as [[| k | | |]|]; rewrite ?length_insert;
    try (destruct Hacc as [-> _]; done);
    replace (finished (<[i:=w']> ws)) with (finished ws) by lia; done.
Qed.

Lemma step_worker_accounted i s s' :
  step_worker layerInfos i s = Some s' → quiet s →
  accounted layerInfos s → accounted layerInfos s'.
Proof.
  unfold step_worker, accounted. intros Hstep Hq [Hacc Hgo].
  destruct (workers s !! i) as [w|] eqn:Hw; [| discriminate].
  destruct (layerInfos !! i) as [b|] eqn:Hb; [| discriminate].
  destruct w; try discriminate.
  - destruct (GetBlob b); simplify_eq; cbn; (split; [| done]);
      by eapply accounted_at_update.
  - destruct (DetectCompression bi) as [[[f|] reader]|]; simplify_eq; cbn;
      (split; [| done]); by eapply accounted_at_update.
  - destruct (f reader); simplify_eq; cbn; (split; [| done]);
      by eapply accounted_at_update.
  - simplify_eq. cbn. split; [| done]. by eapply accounted_at_update.
  - destruct (unpackTar reader (dest s)) as [tree err]. simplify_eq. cbn.
    split; [| done]. eapply accounted_at_update; [done | done | by destruct err | done].
  - by rewrite step_send_quiet in Hstep.
  - simplify_eq. cbn. split; [| done].
    destruct Hacc as [Hacc Hcl]. split; [| done].
    pose proof (finished_insert (workers s) i wReturn wDone Hw) as Hfin.
    cbn in Hfin.
    destruct (coordinator s) as [[| k | | |]|]; rewrite ?length_insert.
    + destruct Hacc as [Hnil _]. by rewrite Hnil in Hw.
    + destruct Hacc as (? & ? & ->). split_and!; [done | done | lia].
    + destruct Hacc as (? & ->). split; [done | lia].
    + destruct Hacc as (Hlen & Hall & _).
      assert (finished (workers s) = length (workers s)) as Hall' by lia.
      by pose proof (finished_all _ _ _ Hall' Hw).
    + destruct Hacc as (Hlen & Hall & _).
      assert (finished (workers s) = length (workers s)) as Hall' by lia.
      by pose proof (finished_all _ _ _ Hall' Hw).
    + destruct Hacc as [Hnil _]. by rewrite Hnil in Hw.
Qed.

Lemma step_coordinator_accounted s s' :
  step_coordinator layerInfos s = Some s' →
  accounted layerInfos s → accounted layerInfos s'.
Proof.
  unfold step_coordinator, accounted, accounted_at.
  intros Hstep [[Hacc Hcl] Hgo].
  pose proof (finished_le (workers s)) as Hle.
  assert (finished (workers s ++ [wGetBlob]) = finished (workers s)) as Hspawn.
  { rewrite finished_app. cbn. lia. }
  assert (finished [] = 0) as Hnil by done.
  destruct (coordinator s) as [[| k | | |]|] eqn:Hc; try discriminate;
    repeat case_decide; simplify_eq;
    unfold set_coordinator, set_errs;
    cbn [coordinator workers wg errs closed main];
    rewrite ?length_app, ?Hspawn; cbn [length];
    repeat match goal with Hx : _ ∧ _ |- _ => destruct Hx end;
    try match goal with Hx : workers s = [] |- _ => rewrite Hx end;
    try match goal with Hx : wg s = _ |- _ => rewrite Hx end;
    rewrite ?Hnil; cbn [length];
    split_and!; try done; try lia;
    intros Hx; first [by specialize (Hgo Hx) | by specialize (Hcl Hx)].
Qed.

(** What a step of the body leaves alone. *)
Lemma step_main_frame s s' :
  step_main s = Some s' →
  workers s' = workers s ∧ wg s' = wg s ∧
  closed (errs s') = closed (errs s) ∧ main s' ≠ mGo ∧
  (coordinator s' = coordinator s ∨ (main s = mGo ∧ coordinator s' = Some cAdd)).
Proof.
  unfold step_main. intros Hstep.
  destruct (main s) eqn:Hm; repeat case_match; simplify_eq; cbn;
    split_and!; auto.
Qed.

Lemma step_main_accounted s s' :
  step_main s = Some s' → accounted layerInfos s → accounted layerInfos s'.
Proof.
  intros Hstep [[Hacc Hcl] Hgo].
  destruct (step_main_frame s s' Hstep) as (Hws & Hwg & Hclosed & Hmain & Hc).
  unfold accounted, accounted_at. rewrite Hws, Hwg, Hclosed.
  split; [| by intros Hx].
  destruct Hc as [-> | [Hm ->]]; [done |].
  rewrite (Hgo Hm) in Hacc, Hcl. split; [done |].
  intros Hx. by specialize (Hcl Hx).
Qed.

Lemma step_settled_fetched t s s' :
  move t s = Some s' → quiet s →
  consistent layerInfos (workers s) (passes s) →
  settled_fetched layerInfos (workers s) →
  settled_fetched layerInfos (workers s').
Proof.
  intros Hstep Hq Hc Hs. destruct t as [| |i]; cbn in Hstep.
  - unfold step_main in Hstep. repeat case_match; by simplify_eq.
  - unfold step_coordinator in Hstep. repeat case_match; simplify_eq; cbn;
      try done.
    intros j w b [Hw|[_ Hw]]%lookup_app_Some Hb Hset; [by eapply Hs |].
    apply list_lookup_singleton_Some in Hw as [_ <-]. done.
  - unfold step_worker in Hstep.
    destruct (workers s !! i) as [w|] eqn:Hw; [| discriminate].
    destruct (layerInfos !! i) as [b|] eqn:Hb; [| discriminate].
    pose proof (worker_holds _ _ _ Hc i w b Hw Hb) as Hhold.
    assert (∀ w' ds tr gs,
              (settled w' → is_Some (fetched b)) →
              settled_fetched layerInfos
                (workers (mkState (main s) (coordinator s) (<[i:=w']> (workers s))
                            gs (errs s) ds tr))) as Hupd.
    { intros w' ds tr gs Hw' j w0 b0 [[-> ->]|[_ Hj]]%lookup_insert_cases Hb0 Hset.
      - simplify_eq. by apply Hw'.
      - by eapply Hs. }
    destruct w; try discriminate.
    + destruct (GetBlob b); simplify_eq; by apply Hupd.
    + destruct (DetectCompression bi) as [[[f|] reader]|]; simplify_eq;
        by apply Hupd.
    + destruct (f reader); simplify_eq; by apply Hupd.
    + simplify_eq. by apply Hupd.
    + destruct (unpackTar reader (dest s)) as [tree err]. simplify_eq.
      apply Hupd. intros _. cbn in Hhold. by rewrite Hhold.
    + by rewrite step_send_quiet in Hstep.
    + simplify_eq. apply Hupd. intros _. by apply (Hs i wReturn b).
Qed.

(** What every execution keeps. *)
Lemma exec_accounted tree sched :
  let s := run sched (init tree) in
  quiet s ∧ consistent layerInfos (workers s) (passes s) ∧
  accounted layerInfos s ∧ settled_fetched layerInfos (workers s).
Proof.
  apply (exec_invariant layerInfos
           (λ s, quiet s ∧ consistent layerInfos (workers s) (passes s) ∧
                 accounted layerInfos s ∧ settled_fetched layerInfos (workers s))).
  - intros t s s' Hstep (Hq & Hc & Ha & Hs).
    split; [by eapply step_quiet |]. split; [by eapply step_consistent |].
    split; [| by eapply step_settled_fetched].
    destruct t; cbn in Hstep;
      [by eapply step_main_accounted | by eapply step_coordinator_accounted
      | by eapply step_worker_accounted].
  - split; [apply init_quiet |]. split; [apply init_consistent |].
    split; [| by intros i w b Hw].
    unfold accounted, accounted_at. cbn. split_and!; done.
Qed.

(** X12. When the blob of some layer cannot be fetched or
    decompressed, no execution closes the error channel: the coordinator
    never gets past its [wg.Wait()]. *)
Theorem channel_never_closed_after_failure tree i b sched :
  layerInfos !! i = Some b → fetched b = None →
  closed (errs (run sched (init tree))) = false ∧
  coordinator (run sched (init tree)) ≠ Some cClose ∧
  coordinator (run sched (init tree)) ≠ Some cDone.
Proof.
  intros Hb Hf.
  destruct (exec_accounted tree sched) as (_ & _ & [[Hacc Hcl] _] & Hs).
  assert (∀ s, settled_fetched layerInfos (workers s) →
               length (workers s) = length layerInfos →
               finished (workers s) = length layerInfos → False) as Habs.
  { intros s Hset Hlen Hall.
    destruct (lookup_lt_is_Some_2 (workers s) i) as [w Hw].
    { rewrite Hlen. by eapply lookup_lt_Some. }
    assert (is_done w = true) as Hdone
      by (eapply finished_all; [| done]; lia).
    destruct (Hset i w b Hw Hb) as [r Hr]; [by destruct w |]. congruence. }
  set (s := run sched (init tree)) in *.
  assert (coordinator s ≠ Some cClose ∧ coordinator s ≠ Some cDone) as [Hc1 Hc2].
  { split; intros Hc; rewrite Hc in Hacc; destruct Hacc as (Hlen & Hall & _);
      by eapply (Habs s). }
  split; [| done].
  destruct (closed (errs s)) eqn:Hclosed; [| done].
  by specialize (Hcl eq_refl).
Qed.

End PipelineMore.

Lemma processLayers_returns_without_waiting_witness :
  image_utils.returned
    (image_utils.exec Scenario.one_missing_layer
       [image_utils.tMain; image_utils.tCoordinator; image_utils.tMain]
       Scenario.start)
  = Some None.
Proof.
  apply (@processLayers_returns_without_waiting Scenario.layers_by_name).
  vm_compute. lia.
Defined.

Lemma destination_of_any_order_witness :
  ∃ sched,
    image_utils.dest (image_utils.exec Scenario.two_layers sched Scenario.start)
    = foldl (@image_utils.apply_layer Scenario.layers_by_name Scenario.two_layers)
            [] [1; 0].
Proof.
  apply (@destination_of_any_order Scenario.layers_by_name Scenario.two_layers
           [] [1; 0]).
  - apply perm_swap.
  - intros b Hb. unfold Scenario.two_layers in Hb.
    apply elem_of_cons in Hb as [->|Hb]; [vm_compute; eauto |].
    apply elem_of_cons in Hb as [->|Hb]; [vm_compute; eauto |].
    by apply not_elem_of_nil in Hb.
Defined.

Lemma channel_never_closed_after_failure_witness :
  @image_utils.fetched Scenario.layers_by_name (image_utils.mkBlobInfo "missing" 10)
  = None ∧
  ∀ sched,
    image_utils.closed
      (image_utils.errs
         (image_utils.exec Scenario.one_missing_layer sched Scenario.start))
    = false.
Proof.
  split; [reflexivity |]. intros sched.
  apply (@channel_never_closed_after_failure Scenario.layers_by_name
           Scenario.one_missing_layer [] 0
           (image_utils.mkBlobInfo "missing" 10) sched);
    reflexivity.
Defined.

Lemma failed_worker_stays_blocked_witness :
  let blocked :=
    Some (@image_utils.wSend Scenario.layers_by_name
            "Failed to pull image layer: blob unknown") in
  let s := @image_utils.exec Scenario.layers_by_name Scenario.one_missing_layer
             [image_utils.tMain; image_utils.tCoordinator;
              image_utils.tCoordinator; image_utils.tWorker 0]
             Scenario.start in
  image_utils.workers s !! 0 = blocked ∧
  ∀ sched,
    image_utils.workers (image_utils.exec Scenario.one_missing_layer sched s) !! 0
    = blocked.
Proof.
  intros blocked s.
  assert (image_utils.workers s !! 0 = blocked) as Hw by (vm_compute; reflexivity).
  split; [exact Hw |].
  exact (@failed_worker_stays_blocked Scenario.layers_by_name
           Scenario.one_missing_layer [] _ 0 _ Hw).
Defined.

(** ** More on the resolver *)

Section ResolverMore.
Context `{Collaborators} `{os.System}.

(** A text occurs in every text built around it. *)
Lemma Contains_infix a b c : strings.Contains (a +:+ b +:+ c) b = true.
Proof.
  induction a as [|x a IH].
  - change ("" +:+ b +:+ c) with (b +:+ c).
    assert (String.prefix b (b +:+ c) = true) as Hp.
    { clear. induction b as [|y b IH]; [by destruct c |].
      rewrite append_cons. apply string_prefix_cons. done. }
    destruct (b +:+ c); cbn [strings.Contains]; by rewrite Hp.
  - rewrite append_cons. cbn [strings.Contains]. rewrite IH. apply orb_true_r.
Qed.

(** X13. Both texts of [CloudPrepper.SupportsImage] refuse an
    identifier that holds the daemon scheme at any place, not only in
    front, and leave the identifier as it is. *)
Theorem CloudPrepper_refuses_daemon_scheme_anywhere before after :
  let ip := ImagePrepper.mk (before +:+ DaemonPrefix +:+ after) in
  CloudPrepper_SupportsImage ip = (false, ip) ∧
  CloudPrepper_SupportsImage' ip = (false, ip).
Proof.
  intros ip.
  unfold CloudPrepper_SupportsImage, CloudPrepper_SupportsImage',
    daemonRegex_MatchString.
  cbn [ImagePrepper.Source ip]. by rewrite Contains_infix.
Qed.

(** X14. The first text of [CloudPrepper.SupportsImage] writes the
    identifier only when it claims it, and what it then stores is the
    identifier with every occurrence of the remote scheme deleted. *)
Theorem CloudPrepper_SupportsImage_writes ip :
  ((CloudPrepper_SupportsImage ip).1 = false →
     (CloudPrepper_SupportsImage ip).2 = ip) ∧
  ((CloudPrepper_SupportsImage ip).1 = true →
     ImagePrepper.Source (CloudPrepper_SupportsImage ip).2 =
       strings.delete_occurrences RemotePrefix 0 (ImagePrepper.Source ip)).
Proof.
  rewrite CloudPrepper_SupportsImage_state.
  destruct (CloudPrepper_SupportsImage ip).1; split; try done.
  intros _. cbn [ImagePrepper.Source].
  by apply Replace_deletes_every_occurrence.
Qed.

(** The events of the probing loop that are not calls. *)
Lemma not_a_call_here k m (evs : list Event) e :
  (∀ k' m', e ≠ Call k' m') ∨ (∃ k', e = Call k' mSupportsImage) →
  m ≠ mSupportsImage → Call k m ∈ evs ++ [e] → Call k m ∈ evs.
Proof.
  intros He Hm [Hin|Hin%list_elem_of_singleton]%elem_of_app; [done |].
  destruct He as [He|[k' ->]]; [by destruct (He k m) | by simplify_eq].
Qed.

(** A call of [GetFileSystem] or [GetConfig] made by the probing loop
    is a call on a strategy that claimed the identifier, in the state the
    strategies before it had left. *)
Lemma probe_calls ps w k m :
  m ≠ mSupportsImage → Call k m ∈ events (probe ps w).2 →
  Call k m ∈ events w ∨
  ∃ before P rest ip ip',
    ps = before ++ P :: rest ∧ strategy P = k ∧
    exhausts before (prepper_state w) ip ∧ SupportsImage P ip = (true, ip').
Proof.
  intros Hm. revert w. induction ps as [|P ps IH]; intros w Hin; [by left |].
  rewrite probe_cons in Hin.
  destruct (SupportsImage P (prepper_state w)) as [supported ip1] eqn:Hsup.
  cbn zeta in Hin. destruct supported.
  - set (w2 := mkWorld ip1 _) in Hin.
    assert (Call k m ∈ events w2 → Call k m ∈ events w) as Hw2.
    { subst w2. cbn [events]. intros Hc.
      apply not_a_call_here in Hc; [| by left | done].
      apply not_a_call_here in Hc; [done | right; by eexists | done]. }
    assert (prepper_state w2 = ip1) as Hs2 by done. clearbody w2.
    pose proof (getImage_frame P w2) as [Hst _].
    pose proof (getImage_calls P w2 k m) as Hcalls.
    pose proof (getImage_run P w2) as Hrun. rewrite Hs2 in Hst, Hrun.
    cbn zeta in Hrun.
    assert (Call k m ∈ events (getImage P w2).2 →
            Call k m ∈ events w ∨
            ∃ before Q rest ip ip',
              P :: ps = before ++ Q :: rest ∧ strategy Q = k ∧
              exhausts before (prepper_state w) ip ∧
              SupportsImage Q ip = (true, ip')) as Hhere.
    { intros Hc. destruct (Hcalls Hc) as [Hold|[Hk _]]; [left; by apply Hw2 |].
      right. subst k. by exists [], P, ps, (prepper_state w), ip1. }
    destruct (getImage P w2) as [[img [e|]] w3] eqn:Hget; cbn [fst snd] in *.
    + set (w4 := mkWorld _ _) in Hin.
      assert (prepper_state w4 = ip1) as Hs4 by done.
      assert (Call k m ∈ events w4 → Call k m ∈ events w3) as Hw4.
      { subst w4. cbn [events]. intros Hc.
        apply not_a_call_here in Hc; [done | by left | done]. }
      clearbody w4.
      destruct (IH w4 Hin) as [Hold|(before & Q & rest & ip & ip' & -> & Hk & Hex & Hq)].
      * apply Hhere. by apply Hw4.
      * right. exists (P :: before), Q, rest, ip, ip'.
        split; [done |]. split; [done |]. split; [| done].
        exists ip1. rewrite Hs4 in Hex. split; [| done]. right. exists e.
        unfold attempt. rewrite Hsup.
        destruct (GetFileSystem P ip1) as [imgPath [e1|]]; [by inversion Hrun |].
        destruct (GetConfig P ip1) as [config [e1|]]; by inversion Hrun.
    + by apply Hhere.
  - set (w1 := mkWorld ip1 _) in Hin.
    assert (Call k m ∈ events w1 → Call k m ∈ events w) as Hw1.
    { subst w1. cbn [events]. intros Hc.
      apply not_a_call_here in Hc; [done | right; by eexists | done]. }
    assert (prepper_state w1 = ip1) as Hs1 by done. clearbody w1.
    destruct (IH w1 Hin) as [Hold|(before & Q & rest & ip & ip' & -> & Hk & Hex & Hq)].
    + left. by apply Hw1.
    + right. exists (P :: before), Q, rest, ip, ip'.
      split; [done |]. split; [done |]. split; [| done].
      exists ip1. rewrite Hs1 in Hex. split; [| done]. left.
      unfold attempt. by rewrite Hsup.
Qed.

(** X15. While an identifier without a scheme is resolved,
    [GetFileSystem] and [GetConfig] are called only on a strategy whose
    [SupportsImage] had claimed the identifier, in the state the
    strategies tried before had left. *)
Theorem unclaimed_strategy_never_fetches source img err w k m :
  strings.HasPrefix source DaemonPrefix = false →
  strings.HasPrefix source RemotePrefix = false →
  resolve source = (img, err, w) →
  m ≠ mSupportsImage → Call k m ∈ events w →
  ∃ before P rest ip ip',
    orderedPreppers = before ++ P :: rest ∧ strategy P = k ∧
    exhausts before (ImagePrepper.mk source) ip ∧
    SupportsImage P ip = (true, ip').
Proof.
  intros Hd Hr Hres Hm Hin. rewrite resolve_run, Hd, Hr in Hres. cbn zeta in Hres.
  set (w0 := mkWorld _ _) in Hres.
  pose proof (probe_calls orderedPreppers w0 k m Hm) as Hcalls.
  rewrite Hres in Hcalls. cbn [snd] in Hcalls.
  destruct (Hcalls Hin) as [Hold|Hnew]; [| done].
  subst w0. cbn [events] in Hold. apply list_elem_of_singleton in Hold. discriminate.
Qed.

(** X16. With the first text of [CloudPrepper.SupportsImage], an
    identifier without a scheme that parses as a registry reference is
    never fetched from the registry, provided the daemon strategy leaves
    the identifier as it is: no [GetFileSystem] and no [GetConfig] is
    called on the registry strategy. *)
Theorem parsed_reference_not_fetched_from_registry source img err w m :
  strings.HasPrefix source DaemonPrefix = false →
  strings.HasPrefix source RemotePrefix = false →
  reference_Parse source = None →
  (daemon_SupportsImage source).2 = source →
  resolve source = (img, err, w) →
  m ≠ mSupportsImage → Call Cloud m ∉ events w.
Proof.
  intros Hd Hr Hparse Hdaemon Hres Hm Hin.
  rewrite resolve_run, Hd, Hr in Hres. cbn zeta in Hres.
  set (w0 := mkWorld _ _) in Hres.
  pose proof (probe_calls orderedPreppers w0 Cloud m Hm) as Hcalls.
  rewrite Hres in Hcalls. cbn [snd] in Hcalls.
  destruct (Hcalls Hin)
    as [Hold|(before & P & rest & ip & ip' & Hps & Hk & Hex & Hsup)].
  { subst w0. cbn [events] in Hold. apply list_elem_of_singleton in Hold.
    discriminate. }
  unfold orderedPreppers in Hps.
  destruct before as [|D before]; cbn [app] in Hps;
    [injection Hps as <- _; discriminate Hk |].
  destruct before as [|C before]; cbn [app] in Hps.
  2:{ destruct before as [|T before]; cbn [app] in Hps;
        [injection Hps as _ _ <- _; discriminate Hk |].
      destruct before; discriminate Hps. }
  injection Hps as <- <- _. cbn [exhausts] in Hex. destruct Hex as (ip1 & Hatt & <-).
  assert (ip1 = ImagePrepper.mk source) as ->.
  { subst w0. cbn [prepper_state] in Hatt. unfold attempt in Hatt.
    cbn [SupportsImage DaemonPrepper ImagePrepper.Source] in Hatt.
    destruct (daemon_SupportsImage source) as [b s'] eqn:Hds.
    cbn [snd] in Hdaemon. subst s'.
    destruct Hatt as [Hatt|[e Hatt]]; repeat case_match; by simplify_eq. }
  cbn [SupportsImage CloudPrepper] in Hsup.
  unfold CloudPrepper_SupportsImage in Hsup. cbn [ImagePrepper.Source] in Hsup.
  rewrite Hparse in Hsup. by destruct (_ || _)%bool.
Qed.

(** The error of a resolution comes with the zero image. *)
Lemma resolve_error_zero source img e w :
  resolve source = (img, Some e, w) → img = Image.zero.
Proof.
  intros Hres. rewrite resolve_run in Hres. cbn zeta in Hres.
  assert (∀ P w0, getImage P w0 = (img, Some e, w) → img = Image.zero) as Hget.
  { intros P w0 Hrun'. pose proof (getImage_run P w0) as Hrun.
    rewrite Hrun' in Hrun. cbn zeta in Hrun.
    destruct (GetFileSystem P _) as [imgPath [e1|]]; [by simplify_eq |].
    destruct (GetConfig P _) as [config [e1|]]; by simplify_eq. }
  destruct (strings.HasPrefix source DaemonPrefix); [by eapply Hget |].
  destruct (strings.HasPrefix source RemotePrefix); [by eapply Hget |].
  set (w0 := mkWorld _ _) in Hres.
  destruct (probe_run orderedPreppers w0) as (tried & _ & _ & Hspec).
  rewrite Hres in Hspec. cbn [fst] in Hspec. by destruct Hspec as (_ & -> & _).
Qed.

(** X17. A resolution that fails hands out the zero image, and
    [CleanupImage] on that image removes nothing and logs nothing,
    whatever the strategies had put on the machine. *)
Theorem failed_resolution_leaves_nothing_to_clean source img e w h :
  resolve source = (img, Some e, w) →
  img = Image.zero ∧ image_utils.CleanupImage img h = (img, h).
Proof.
  intros Hres. apply resolve_error_zero in Hres as ->. done.
Qed.

End ResolverMore.

Lemma unclaimed_strategy_never_fetches_witness :
  let r := @resolve Scenario.registry_only "image.tar" in
  Call Tar mGetFileSystem ∈ events r.2 ∧
  ∃ before P rest ip ip',
    @orderedPreppers Scenario.registry_only = before ++ P :: rest ∧
    strategy P = Tar ∧
    exhausts before (ImagePrepper.mk "image.tar") ip ∧
    SupportsImage P ip = (true, ip').
Proof.
  intros r. destruct r as [[img err] w] eqn:Hres.
  assert (Call Tar mGetFileSystem ∈ events w) as Hin.
  { vm_compute in Hres. injection Hres as _ _ <-.
    repeat first [apply list_elem_of_here | apply list_elem_of_further]. }
  split; [exact Hin |].
  apply (@unclaimed_strategy_never_fetches Scenario.registry_only
           "image.tar" img err w Tar mGetFileSystem);
    [by vm_compute | by vm_compute | exact Hres | discriminate | exact Hin].
Defined.

Lemma parsed_reference_not_fetched_from_registry_witness :
  let r := @resolve Scenario.registry_only "gcr.io/gcp-runtimes/diff-base" in
  @reference_Parse Scenario.registry_only "gcr.io/gcp-runtimes/diff-base" = None ∧
  Call Cloud mGetFileSystem ∉ events r.2.
Proof.
  intros r. split; [by vm_compute |]. destruct r as [[img err] w] eqn:Hres.
  apply (@parsed_reference_not_fetched_from_registry Scenario.registry_only
           "gcr.io/gcp-runtimes/diff-base" img err w mGetFileSystem);
    [by vm_compute | by vm_compute | by vm_compute | by vm_compute
    | exact Hres | discriminate].
Defined.

Lemma failed_resolution_leaves_nothing_to_clean_witness :
  let r := @resolve Scenario.registry_only "gcr.io/gcp-runtimes/diff-base" in
  r.1.2 ≠ None ∧
  image_utils.CleanupImage r.1.1 Scenario.host = (r.1.1, Scenario.host).
Proof.
  intros r. destruct r as [[img [e|]] w] eqn:Hres;
    [| vm_compute in Hres; discriminate].
  split; [done |].
  apply (@failed_resolution_leaves_nothing_to_clean Scenario.registry_only
           Scenario.machine "gcr.io/gcp-runtimes/diff-base" img e w
           Scenario.host Hres).
Defined.

Lemma CloudPrepper_SupportsImage_writes_witness :
  ImagePrepper.Source
    (@CloudPrepper_SupportsImage Scenario.registry_only
       (ImagePrepper.mk "remote://gcr.io/diff base")).2
  = "gcr.io/diff base".
Proof.
  apply (proj2 (@CloudPrepper_SupportsImage_writes Scenario.registry_only
                  (ImagePrepper.mk "remote://gcr.io/diff base"))).
  vm_compute. reflexivity.
Defined.

(** ** The wait group, and a run that completes *)

Section PipelineCompletes.
Import image_utils.
Context `{LayerSource}.
Variable layerInfos : list BlobInfo.

Abbreviation run' := (image_utils.exec layerInfos).
Abbreviation move' := (image_utils.step layerInfos).

(** X20. Under every schedule the counter of the wait group stays
    between zero and the number of layers, and there are never more
    workers than layers: [wg.Done()] never drives the counter below
    zero. *)
Theorem wait_group_counter_in_range tree sched :
  (0 ≤ wg (run' sched (init tree)) ≤ Z.of_nat (length layerInfos))%Z ∧
  length (workers (run' sched (init tree))) ≤ length layerInfos.
Proof.
  destruct (exec_accounted layerInfos tree sched) as (_ & _ & [[Hacc _] _] & _).
  pose proof (finished_le (workers (run' sched (init tree)))) as Hle.
  destruct (coordinator _) as [[| k | | |]|];
    repeat match goal with Hx : _ ∧ _ |- _ => destruct Hx end;
    try match goal with Hx : workers _ = [] |- _ => rewrite Hx end;
    cbn [length]; lia.
Qed.

(** While the channel is quiet, the workers move neither the body nor
    the coordinator nor the channel. *)
Lemma workers_only_frame sched s :
  workers_only sched → quiet s →
  main (run' sched s) = main s ∧
  coordinator (run' sched s) = coordinator s ∧
  errs (run' sched s) = errs s ∧ quiet (run' sched s).
Proof.
  intros Hsched. revert s. induction Hsched as [|t sched [i ->] _ IH]; intros s Hq;
    [done |].
  rewrite exec_cons.
  destruct (move' (tWorker i) s) as [s'|] eqn:Hstep; cbn [from_option id];
    [| by apply IH].
  pose proof (step_quiet _ _ _ _ Hstep Hq) as Hq'.
  destruct (IH s' Hq') as (-> & -> & -> & ?).
  split_and!; [| | | done]; cbn in Hstep; unfold step_worker in Hstep;
    repeat case_match; simplify_eq; try done;
    by rewrite step_send_quiet in Hstep.
Qed.

(** A step of the worker [i] that only changes where it stands, put in
    front of a run of that worker to its end. *)
Lemma silent_step_to_end i s w1 tr :
  move' (tWorker i) s = Some (set_worker i w1 s) →
  (∃ sched, workers_only sched ∧
     workers (run' sched (set_worker i w1 s))
       = <[i:=wDone]> (workers (set_worker i w1 s)) ∧
     passes (run' sched (set_worker i w1 s)) = passes (set_worker i w1 s) ++ tr) →
  ∃ sched, workers_only sched ∧
    workers (run' sched s) = <[i:=wDone]> (workers s) ∧
    passes (run' sched s) = passes s ++ tr.
Proof.
  intros Hstep (sched & Honly & Hws & Htr).
  exists (tWorker i :: sched). split; [constructor; eauto |].
  rewrite exec_cons, Hstep. cbn [from_option id].
  rewrite Hws, Htr. cbn. by rewrite list_insert_insert_eq.
Qed.

(** The worker [i], about to call an [unpackTar] that succeeds, makes
    its pass and finishes. *)
Lemma unpack_to_end i s b r :
  (∀ reader tree, (unpackTar reader tree).2 = None) →
  workers s !! i = Some (wUnpack r) → layerInfos !! i = Some b →
  ∃ sched, workers_only sched ∧
    workers (run' sched s) = <[i:=wDone]> (workers s) ∧
    passes (run' sched s) = passes s ++ [ApplyBegin i; ApplyEnd i].
Proof.
  intros Hok Hw Hb. pose proof (lookup_lt_Some _ _ _ Hw) as Hlt.
  pose proof (Hok r (dest s)) as Herr.
  destruct (unpackTar r (dest s)) as [tree err] eqn:Hun. cbn in Herr. subst err.
  set (s1 := mkState (main s) (coordinator s) (<[i:=wUnpacking r]> (workers s))
               (wg s) (errs s) (dest s) (passes s ++ [ApplyBegin i])).
  assert (move' (tWorker i) s = Some s1) as Hs1.
  { cbn. unfold step_worker. by rewrite Hw, Hb. }
  set (s2 := mkState (main s) (coordinator s) (<[i:=wReturn]> (workers s1))
               (wg s) (errs s) tree (passes s1 ++ [ApplyEnd i])).
  assert (move' (tWorker i) s1 = Some s2) as Hs2.
  { cbn. unfold step_worker. cbn [workers dest s1].
    by rewrite list_lookup_insert_eq, Hb, Hun by done. }
  set (s3 := mkState (main s) (coordinator s) (<[i:=wDone]> (workers s2))
               (wg s - 1) (errs s) tree (passes s2)).
  assert (move' (tWorker i) s2 = Some s3) as Hs3.
  { cbn. unfold step_worker. cbn [workers s2 s1].
    by rewrite list_lookup_insert_eq, Hb by (by rewrite !length_insert). }
  exists (replicate 3 (tWorker i)). split.
  { repeat constructor; eauto. }
  cbn [replicate]. rewrite exec_cons, Hs1. cbn [from_option id].
  rewrite exec_cons, Hs2. cbn [from_option id].
  rewrite exec_cons, Hs3. cbn [from_option id exec foldl].
  cbn. by rewrite !list_insert_insert_eq, <-app_assoc.
Qed.

(** A worker whose layer can be fetched and unpacked runs from its
    start to its end while the others stand still. *)
Lemma worker_to_end i s b r :
  (∀ reader tree, (unpackTar reader tree).2 = None) →
  workers s !! i = Some wGetBlob → layerInfos !! i = Some b →
  fetched b = Some r →
  ∃ sched, workers_only sched ∧
    workers (run' sched s) = <[i:=wDone]> (workers s) ∧
    passes (run' sched s) = passes s ++ [ApplyBegin i; ApplyEnd i].
Proof.
  intros Hok Hw Hb Hf. unfold fetched in Hf.
  pose proof (lookup_lt_Some _ _ _ Hw) as Hlt.
  destruct (GetBlob b) as [bi|] eqn:Hget; [| discriminate].
  apply (silent_step_to_end i s (wDetect bi)).
  { cbn. unfold step_worker. by rewrite Hw, Hb, Hget. }
  set (s1 := set_worker i (wDetect bi) s).
  assert (workers s1 !! i = Some (wDetect bi)) as Hw1
    by (by apply list_lookup_insert_eq).
  destruct (DetectCompression bi) as [[[f|] reader]|] eqn:Hdet; [| | discriminate].
  - destruct (f reader) as [reader'|] eqn:Hdec; [| discriminate]. simplify_eq.
    apply (silent_step_to_end i s1 (wDecompress f reader)).
    { cbn. unfold step_worker. by rewrite Hw1, Hb, Hdet. }
    set (s2 := set_worker i (wDecompress f reader) s1).
    assert (workers s2 !! i = Some (wDecompress f reader)) as Hw2.
    { apply list_lookup_insert_eq. cbn. by rewrite !length_insert. }
    apply (silent_step_to_end i s2 (wUnpack r)).
    { cbn. unfold step_worker. by rewrite Hw2, Hb, Hdec. }
    apply (unpack_to_end i _ b r); [done | | done].
    apply list_lookup_insert_eq. cbn. by rewrite !length_insert.
  - simplify_eq.
    apply (silent_step_to_end i s1 (wUnpack r)).
    { cbn. unfold step_worker. by rewrite Hw1, Hb, Hdet. }
    apply (unpack_to_end i _ b r); [done | | done].
    apply list_lookup_insert_eq. cbn. by rewrite !length_insert.
Qed.

Lemma workers_only_app sched1 sched2 :
  workers_only sched1 → workers_only sched2 → workers_only (sched1 ++ sched2).
Proof. apply Forall_app_2. Qed.

(** The workers of [order], none of which has moved yet, run to their
    ends one after the other. *)
Lemma run_to_end order s :
  (∀ reader tree, (unpackTar reader tree).2 = None) →
  NoDup order →
  (∀ i, i ∈ order →
     workers s !! i = Some wGetBlob ∧
     ∃ b r, layerInfos !! i = Some b ∧ fetched b = Some r) →
  ∃ sched, workers_only sched ∧
    passes (run' sched s) = passes s ++ sequential order ∧
    length (workers (run' sched s)) = length (workers s) ∧
    (∀ i, i ∈ order → workers (run' sched s) !! i = Some wDone) ∧
    (∀ j, j ∉ order → workers (run' sched s) !! j = workers s !! j).
Proof.
  intros Hok. revert s. induction order as [|i order IH]; intros s Hnd Hall.
  - exists []. split; [constructor |]. cbn. rewrite app_nil_r.
    split_and!; try done. intros i Hi. by apply not_elem_of_nil in Hi.
  - apply NoDup_cons in Hnd as [Hi Hnd].
    destruct (Hall i) as (Hw & b & r & Hb & Hf); [apply list_elem_of_here |].
    destruct (worker_to_end i s b r Hok Hw Hb Hf) as (sched1 & Honly1 & Hws & Htr).
    destruct (IH (run' sched1 s) Hnd)
      as (sched2 & Honly2 & Hrest & Hlen & Hdone & Hother).
    { intros j Hj. destruct (Hall j) as (Hwj & Hbj); [by apply list_elem_of_further |].
      split; [| done]. rewrite Hws, list_lookup_insert_ne; [done |].
      intros ->. done. }
    exists (sched1 ++ sched2). split; [by apply workers_only_app |].
    rewrite exec_app. split_and!.
    + rewrite Hrest, Htr. unfold sequential. by rewrite bind_cons, <-app_assoc.
    + by rewrite Hlen, Hws, length_insert.
    + intros j [->|Hj]%elem_of_cons; [| by apply Hdone].
      rewrite Hother, Hws by done. apply list_lookup_insert_eq.
      by eapply lookup_lt_Some.
    + intros j Hj. apply not_elem_of_cons in Hj as [Hne Hj].
      by rewrite Hother, Hws, list_lookup_insert_ne.
Qed.

Lemma finished_all_done ws :
  (∀ i, i < length ws → ws !! i = Some wDone) → finished ws = length ws.
Proof.
  induction ws as [|w ws IH]; intros Hall; [done |].
  pose proof (Hall 0 ltac:(cbn; lia)) as Hw. cbn in Hw. simplify_eq.
  cbn. unfold finished in IH. rewrite IH; [done |].
  intros i Hi. apply (Hall (S i)). cbn. lia.
Qed.

(** X21. When every layer can be fetched and [unpackTar] never
    fails, then for every ordering of the layers some execution applies
    the layers in that order and runs to completion: every worker has
    run its [wg.Done()], the coordinator has closed the channel, and
    [processLayers] has returned [nil]. *)
Theorem pipeline_can_complete tree order :
  (∀ reader tree, (unpackTar reader tree).2 = None) →
  (∀ b, b ∈ layerInfos → is_Some (fetched b)) →
  order ≡ₚ seq 0 (length layerInfos) →
  ∃ sched,
    let s := run' sched (init tree) in
    passes s = sequential order ∧
    workers s = replicate (length layerInfos) wDone ∧
    coordinator s = Some cDone ∧ closed (errs s) = true ∧
    wg s = 0%Z ∧ returned s = Some None.
Proof.
  intros Hok Hfetch Hperm.
  set (sched0 := tMain :: replicate (S (length layerInfos)) tCoordinator).
  pose proof (startup layerInfos tree) as Hstart. fold sched0 in Hstart.
  destruct (run_to_end order (run' sched0 (init tree)) Hok)
    as (sched1 & Honly & Htr & Hlen & Hdone & _).
  { rewrite Hperm. apply NoDup_seq. }
  { intros i Hi. rewrite Hperm in Hi. apply elem_of_seq in Hi as [_ Hi].
    rewrite Hstart. cbn [workers].
    split; [by apply lookup_replicate_2 |].
    destruct (lookup_lt_is_Some_2 layerInfos i) as [b Hb]; [done |].
    destruct (Hfetch b) as [r Hr]; [by eapply list_elem_of_lookup_2 |].
    by exists b, r. }
  pose proof (exec_accounted layerInfos tree (sched0 ++ sched1))
    as (Hq & _ & [[Hacc _] _] & _).
  rewrite exec_app in Hq, Hacc.
  destruct (workers_only_frame sched1 (run' sched0 (init tree)) Honly)
    as (Hmain & Hcoord & Herrs & _).
  { by destruct (exec_accounted layerInfos tree sched0) as (Hq0 & _). }
  set (s1 := run' sched1 (run' sched0 (init tree))) in *.
  rewrite Hstart in Hmain, Hcoord, Herrs, Htr, Hlen. cbn in Hmain, Hcoord, Herrs, Htr, Hlen.
  rewrite length_replicate in Hlen.
  assert (workers s1 = replicate (length layerInfos) wDone) as Hws.
  { apply list_eq. intros i. destruct (decide (i < length layerInfos)) as [Hi|Hi].
    - rewrite lookup_replicate_2 by done. apply Hdone.
      rewrite Hperm. apply elem_of_seq. lia.
    - rewrite (lookup_ge_None_2 (workers s1)), (lookup_ge_None_2 (replicate _ _));
        [done | rewrite length_replicate; lia | lia]. }
  assert (finished (workers s1) = length layerInfos) as Hfin.
  { rewrite finished_all_done; [done |]. intros i Hi. rewrite Hws.
    apply lookup_replicate_2. by rewrite Hlen in Hi. }
  rewrite Hcoord in Hacc. destruct Hacc as (_ & _ & Hwg).
  rewrite Hfin in Hwg.
  exists (sched0 ++ sched1 ++ [tCoordinator; tCoordinator; tCoordinator; tMain]).
  cbn zeta. rewrite !exec_app. fold s1.
  rewrite !exec_cons. cbn [exec foldl step].
  assert (step_coordinator layerInfos s1 = Some (set_coordinator cWait s1)) as ->.
  { unfold step_coordinator. rewrite Hcoord. by rewrite decide_False by lia. }
  cbn [from_option id].
  assert (step_coordinator layerInfos (set_coordinator cWait s1)
          = Some (set_coordinator cClose (set_coordinator cWait s1))) as ->.
  { unfold step_coordinator. cbn [coordinator set_coordinator wg].
    by rewrite decide_True by lia. }
  cbn [from_option id].
  unfold step_coordinator at 1. cbn [coordinator set_coordinator from_option id].
  unfold step_main, set_coordinator, set_errs, set_main.
  cbn [main errs buffer closed capacity chan_len]. rewrite Hmain.
  rewrite Herrs. cbn [make_chan chan_len buffer length].
  rewrite decide_False by (by intros Hx; apply Hx).
  cbn. split_and!; try done. lia.
Qed.

End PipelineCompletes.

Lemma pipeline_can_complete_witness :
  ∃ sched,
    let s := image_utils.exec Scenario.two_layers sched Scenario.start in
    image_utils.passes s = image_utils.sequential [1; 0] ∧
    image_utils.workers s
      = replicate (length Scenario.two_layers) image_utils.wDone ∧
    image_utils.coordinator s = Some image_utils.cDone ∧
    image_utils.closed (image_utils.errs s) = true ∧
    image_utils.wg s = 0%Z ∧ image_utils.returned s = Some None.
Proof.
  apply (@pipeline_can_complete Scenario.layers_by_name Scenario.two_layers
           [] [1; 0]).
  - done.
  - intros b Hb. unfold Scenario.two_layers in Hb.
    apply elem_of_cons in Hb as [->|Hb]; [vm_compute; eauto |].
    apply elem_of_cons in Hb as [->|Hb]; [vm_compute; eauto |].
    by apply not_elem_of_nil in Hb.
  - apply perm_swap.
Defined.

(** ** An identifier that carries its scheme once *)

Section SchemeOnce.
Context `{Collaborators}.

Lemma prefix_append a b : String.prefix a (a +:+ b) = true.
Proof.
  induction a as [|x a IH]; [by destruct b |].
  rewrite append_cons. apply string_prefix_cons. done.
Qed.

(** The scan passes the bytes it has been told to skip. *)
Lemma replace_scan_skip old new n a s :
  strings.replace_scan old new n (String.length a) (a +:+ s)
  = strings.replace_scan old new n 0 s.
Proof.
  induction a as [|x a IH]; [by destruct s |].
  rewrite append_cons. cbn [String.length strings.replace_scan]. apply IH.
Qed.

(** A text that does not hold [old] is left as it is. *)
Lemma replace_scan_absent old new n s :
  strings.Contains s old = false → strings.replace_scan old new n 0 s = s.
Proof.
  induction s as [|c s IH]; [done |]. intros Hc.
  cbn [strings.Contains] in Hc. apply orb_false_elim in Hc as [Hp Hc].
  cbn [strings.replace_scan]. rewrite Hp, (IH Hc). by destruct n as [[|k]|].
Qed.

Lemma Replace_leading_occurrence old rest :
  old ≠ "" → strings.Contains rest old = false →
  strings.Replace (old +:+ rest) old "" (-1) = rest.
Proof.
  intros Hne Hc. unfold strings.Replace.
  destruct old as [|c old]; [done |].
  cbn [String.eqb orb Z.eqb Z.ltb Z.compare].
  rewrite append_cons. cbn [strings.replace_scan].
  rewrite <-append_cons, prefix_append.
  cbn [fmap option_fmap option_map String.length].
  replace (S (String.length old) - 1) with (String.length old) by lia.
  change ("" +:+ ?x) with x.
  by rewrite replace_scan_skip, replace_scan_absent.
Qed.

(** X22. Resolving an identifier made of a scheme and a text that
    does not hold the scheme again is fetching that text from the
    strategy of the scheme: the stored identifier is the text behind the
    scheme, and the result is that of [getImage] on it. *)
Theorem scheme_then_plain_identifier prefix P rest :
  (prefix = DaemonPrefix ∧ P = DaemonPrepper) ∨
  (prefix = RemotePrefix ∧ P = CloudPrepper) →
  strings.Contains rest prefix = false →
  resolve (prefix +:+ rest) =
    getImage P (mkWorld (ImagePrepper.mk rest)
                  [Glog "INFO" ("Starting prep for image " +:+ prefix +:+ rest)]) ∧
  ImagePrepper.Source (prepper_state (resolve (prefix +:+ rest)).2) = rest.
Proof.
  intros HP Hc.
  assert (prefix ≠ "") as Hne by (by destruct HP as [[-> _]|[-> _]]).
  assert (resolve (prefix +:+ rest) =
          getImage P (mkWorld (ImagePrepper.mk rest)
            [Glog "INFO" ("Starting prep for image " +:+ prefix +:+ rest)])) as Hres.
  { rewrite (resolve_scheme _ prefix P HP); [| apply prefix_append].
    by rewrite Replace_leading_occurrence. }
  split; [done |]. rewrite Hres.
  by destruct (getImage_frame P (mkWorld (ImagePrepper.mk rest)
    [Glog "INFO" ("Starting prep for image " +:+ prefix +:+ rest)])) as [-> _].
Qed.

End SchemeOnce.

Lemma scheme_then_plain_identifier_witness :
  ImagePrepper.Source
    (prepper_state
       (@resolve Scenario.registry_only "remote://gcr.io/gcp-runtimes/diff-base").2)
  = "gcr.io/gcp-runtimes/diff-base".
Proof.
  assert (strings.Contains "gcr.io/gcp-runtimes/diff-base" RemotePrefix = false)
    as Hc by (vm_compute; reflexivity).
  exact (proj2 (@scheme_then_plain_identifier Scenario.registry_only RemotePrefix
                  (@CloudPrepper Scenario.registry_only)
                  "gcr.io/gcp-runtimes/diff-base"
                  (or_intror (conj eq_refl eq_refl)) Hc)).
Defined.
